(** * csv_parser_nif: the streaming buffer and batching engine

    A shallow embedding of [c_src/csv_parser_nif.c].  C structs are records,
    [unsigned] fields are integers in [Z] whose arithmetic wraps at [2^32],
    heap blocks and arrays are lists read and written by index, a pointer that
    the code tests against [NULL] is an [option], and the pointers of
    [struct callback_state] into [struct state] are passed as values and
    written back by the caller.  A failed [assert] aborts the emulator: the
    callbacks return [option], [None] being the abort, and an exported
    function that runs them then answers [AssertFailed].  The tokenizer,
    [libcsv], is an interface the engine calls. *)

From Stdlib Require Import ZArith Lia Strings.String Strings.Byte Bool.
From stdpp Require Import base option list list_numbers.

Local Open Scope Z_scope.

(** ** Constants *)

Definition OPTION_DELIM_TABS : Z := 1.
Definition OPTION_RETURN_BINARY : Z := 2.
Definition MAX_PARSE_SIZE : Z := 128.
Definition MAX_ROWS_PER_BATCH : Z := 64.

(** [CSV_TAB] and [CSV_COMMA] of [libcsv/csv.h]. *)
Definition CSV_TAB : byte := x09.
Definition CSV_COMMA : byte := x2c.

(** Arithmetic of the C type [unsigned]: results are reduced modulo [2^32]. *)
Definition UINT_MODULUS : Z := 2 ^ 32.
Definition uint (z : Z) : Z := z mod UINT_MODULUS.

(** The conversions between [unsigned] and [int] that happen when
    [cols_used] is passed to the [int col_i] of [is_output_column] and then
    compared with an [unsigned]. *)
Definition int_of_unsigned (u : Z) : Z := if u <? 2 ^ 31 then u else u - 2 ^ 32.
Definition unsigned_of_int (i : Z) : Z := i mod UINT_MODULUS.

(** The macro [min]. *)
Definition min (a b : Z) : Z := if a <? b then a else b.

(** ** Erlang terms *)

(** The terms this file builds or inspects.  An Erlang string is the list of
    its character codes; [Resource] is the handle of a session, whose state
    the model passes separately; [Badarg] is the exception term of
    [enif_make_badarg]. *)
Inductive ERL_NIF_TERM : Type :=
| Atom (name : string)
| Integer (z : Z)
| Binary (data : list byte)
| Nil
| Cons (hd tl : ERL_NIF_TERM)
| Tuple2 (a b : ERL_NIF_TERM)
| Resource
| Badarg.

Definition Z_of_byte (b : byte) : Z := Z.of_N (Byte.to_N b).

Definition enif_make_atom (name : string) : ERL_NIF_TERM := Atom name.
Definition enif_make_tuple2 (a b : ERL_NIF_TERM) : ERL_NIF_TERM := Tuple2 a b.
Definition enif_make_badarg : ERL_NIF_TERM := Badarg.

(** [enif_make_list_from_array(env, arr, cnt)]: the first [cnt] slots. *)
Definition enif_make_list_from_array (arr : list ERL_NIF_TERM) (cnt : Z) : ERL_NIF_TERM :=
  foldr Cons Nil (take (Z.to_nat cnt) arr).

(** [enif_make_string_len(env, data, len, ERL_NIF_LATIN1)]. *)
Definition enif_make_string_len (data : list byte) (len : Z) : ERL_NIF_TERM :=
  foldr Cons Nil ((fun b => Integer (Z_of_byte b)) <$> take (Z.to_nat len) data).

(** [enif_make_string(env, s, ERL_NIF_LATIN1)] on a C string literal. *)
Definition enif_make_string (s : string) : ERL_NIF_TERM :=
  foldr Cons Nil ((fun b => Integer (Z_of_byte b)) <$> list_byte_of_string s).

(** [enif_get_uint]: succeeds on the integers that fit the C type
    [unsigned int]. *)
Definition enif_get_uint (t : ERL_NIF_TERM) : option Z :=
  match t with
  | Integer z => if (0 <=? z) && (z <? UINT_MODULUS) then Some z else None
  | _ => None
  end.

(** [enif_get_list_cell]: head and tail of a non-empty list. *)
Definition enif_get_list_cell (t : ERL_NIF_TERM) : option (ERL_NIF_TERM * ERL_NIF_TERM) :=
  match t with
  | Cons hd tl => Some (hd, tl)
  | _ => None
  end.

(** [enif_get_list_length]: the length of a proper list. *)
Fixpoint enif_get_list_length (t : ERL_NIF_TERM) : option Z :=
  match t with
  | Nil => Some 0
  | Cons _ tl => Z.succ <$> enif_get_list_length tl
  | _ => None
  end.

(** [enif_inspect_binary]. *)
Definition enif_inspect_binary (t : ERL_NIF_TERM) : option (list byte) :=
  match t with
  | Binary data => Some data
  | _ => None
  end.

(** ** Memory *)

(** [enif_alloc(n)] for a block of bytes.  The contents of a fresh block are
    indeterminate in C; the model fills it with zero bytes, and every read
    below is of a prefix that [memcpy] wrote before.  Apart from [feed], the
    code uses the result unchecked, so the model takes the allocation to
    succeed there. *)
Definition enif_alloc (n : Z) : list byte := replicate (Z.to_nat n) x00.

(** [memcpy(dst, src, n)]: the first [n] bytes of the block are replaced. *)
Definition memcpy (dst src : list byte) (n : Z) : list byte :=
  take (Z.to_nat n) src ++ drop (Z.to_nat n) dst.

(** The bytes behind a [char *] that may be [NULL]. *)
Definition deref (p : option (list byte)) : list byte := default [] p.

Definition is_null {A} (p : option A) : bool :=
  match p with None => true | Some _ => false end.

(** ** Data model *)

Record cell : Type := mk_cell {
  cell_data_ptr : option (list byte);
  allocated_size : Z;
  data_size : Z
}.

Record row_buffer : Type := mk_row_buffer {
  cells_ptr : list cell;
  allocated_n : Z;
  cols_used : Z
}.

Record out_buffer : Type := mk_out_buffer {
  rows : list ERL_NIF_TERM;
  row_n : Z
}.

Record csv_buffer : Type := mk_csv_buffer {
  csv_data_ptr : option (list byte);
  csv_size : Z;
  consumed : Z
}.

(** The capture index is zero-based. *)
Record capture : Type := mk_capture {
  indexes_ptr : option (list Z);
  capture_size : Z
}.

Record callback_state : Type := mk_callback_state {
  cb_out_buffer : out_buffer;
  row_buffer_ptr : row_buffer;
  capture_ptr : capture;
  cb_options : Z
}.

(** A chunk points into the csv buffer: [chunk_data_ptr] is the buffer from
    the chunk's first byte on, of which [chunk_size] bytes belong to it. *)
Record csv_chunk : Type := mk_csv_chunk {
  chunk_data_ptr : list byte;
  chunk_size : Z
}.

(** ** Cells *)

(** The conversion of a [size_t] to [double] in [size / 16.0]: exact below
    [2^53], rounded to 53 significant bits (nearest, ties to even) above. *)
Definition double_of_size_t (n : Z) : Z :=
  if n <? 2 ^ 53 then n
  else
    let ulp := 2 ^ (Z.log2 n - 52) in
    let q := n / ulp in
    let r := n mod ulp in
    if 2 * r <? ulp then q * ulp
    else if ulp <? 2 * r then (q + 1) * ulp
    else if Z.even q then q * ulp else (q + 1) * ulp.

(** [ceil(size / 16.0) * 16]: the division by 16, [ceil] and the product are
    exact on a double that holds an integer, so only the first conversion
    rounds.  The conversion of the result back to [size_t] is exact below
    [2^64]. *)
Definition align_cell_size (size : Z) : Z :=
  let d := double_of_size_t size in
  ((d + 15) / 16) * 16.

Definition ensure_cell_size (cell_ptr : cell) (size : Z) : cell :=
  if is_null (cell_data_ptr cell_ptr) || (allocated_size cell_ptr <? size) then
    let new_size := align_cell_size size in
    {| cell_data_ptr := Some (enif_alloc new_size);
       allocated_size := new_size;
       data_size := data_size cell_ptr |}
  else cell_ptr.

Definition empty_cell : cell :=
  {| cell_data_ptr := None; allocated_size := 0; data_size := 0 |}.

#[global] Instance cell_inhabited : Inhabited cell := populate empty_cell.

(** The three statements of [add_cell] that store a field of [size] bytes
    into a cell: [ensure_cell_size], the assignment of [data_size] and the
    [memcpy]. *)
Definition store_cell (cell_ptr : cell) (data : list byte) (size : Z) : cell :=
  let c := ensure_cell_size cell_ptr size in
  {| cell_data_ptr := Some (memcpy (deref (cell_data_ptr c)) data size);
     allocated_size := allocated_size c;
     data_size := size |}.

(** The bytes a cell holds: what [make_output_term] reads from it. *)
Definition cell_bytes (c : cell) : list byte :=
  take (Z.to_nat (data_size c)) (deref (cell_data_ptr c)).

(** A cell holds [data] when its block starts with these bytes and
    [data_size] is their number. *)
Definition cell_holds (c : cell) (data : list byte) : Prop :=
  data_size c = Z.of_nat (length data) /\
  exists rest, cell_data_ptr c = Some (data ++ rest).

(** ** Row buffer *)

Definition is_output_column (cb_state_ptr : callback_state) (col_i : Z) : bool :=
  match indexes_ptr (capture_ptr cb_state_ptr) with
  | None => true
  | Some indexes =>
      existsb (fun i => unsigned_of_int col_i =? indexes !!! Z.to_nat i)
              (seqZ 0 (capture_size (capture_ptr cb_state_ptr)))
  end.

(** What a slot of a fresh cell array holds before it is written: some
    leftover value, here a cell that claims a block it does not have. *)
Definition uninitialized_cell : cell :=
  {| cell_data_ptr := Some []; allocated_size := 1; data_size := 1 |}.

(** The new array takes the old cells by [memcpy]; the loop then writes
    [empty_cell] into the slots from [allocated_n] on. *)
Definition ensure_row_buffer_space (row_buffer_ptr : row_buffer) : row_buffer :=
  if cols_used row_buffer_ptr =? allocated_n row_buffer_ptr then
    let old_n := allocated_n row_buffer_ptr in
    let new_allocated_n := uint (old_n + 5) in
    let fresh := replicate (Z.to_nat new_allocated_n) uninitialized_cell in
    let copied := take (Z.to_nat old_n) (cells_ptr row_buffer_ptr)
                  ++ drop (Z.to_nat old_n) fresh in
    let new_cells :=
      foldl (fun cells i => <[Z.to_nat i := empty_cell]> cells) copied
            (seqZ old_n (new_allocated_n - old_n)) in
    {| cells_ptr := new_cells;
       allocated_n := new_allocated_n;
       cols_used := cols_used row_buffer_ptr |}
  else row_buffer_ptr.

Definition set_row_buffer (cb : callback_state) (rb : row_buffer) : callback_state :=
  {| cb_out_buffer := cb_out_buffer cb;
     row_buffer_ptr := rb;
     capture_ptr := capture_ptr cb;
     cb_options := cb_options cb |}.

Definition add_cell (data : list byte) (size : Z) (cb_state_ptr : callback_state)
  : callback_state :=
  let rb := ensure_row_buffer_space (row_buffer_ptr cb_state_ptr) in
  let cells :=
    if is_output_column cb_state_ptr (int_of_unsigned (cols_used rb)) then
      let i := Z.to_nat (cols_used rb) in
      <[i := store_cell (cells_ptr rb !!! i) data size]> (cells_ptr rb)
    else cells_ptr rb in
  set_row_buffer cb_state_ptr
    {| cells_ptr := cells;
       allocated_n := allocated_n rb;
       cols_used := uint (cols_used rb + 1) |}.

(** ** Output terms *)

(** [enif_make_new_binary] of [size] bytes filled by [memcpy]. *)
Definition make_output_binary (data : list byte) (size : Z) : ERL_NIF_TERM :=
  Binary (memcpy (enif_alloc size) data size).

Definition make_output_term (data : list byte) (size : Z) (options : Z) : ERL_NIF_TERM :=
  if negb (Z.land options OPTION_RETURN_BINARY =? 0) then make_output_binary data size
  else enif_make_string_len data size.

(** The term [make_output_terms] builds from the cell at index [i]. *)
Definition cell_term (cb_state_ptr : callback_state) (i : Z) : ERL_NIF_TERM :=
  let c := cells_ptr (row_buffer_ptr cb_state_ptr) !!! Z.to_nat i in
  make_output_term (deref (cell_data_ptr c)) (data_size c) (cb_options cb_state_ptr).

(** Returns the array it filled and the final value of [out_i]. *)
Definition make_output_terms (cb_state_ptr : callback_state)
    (out_terms_ptr : list ERL_NIF_TERM) : list ERL_NIF_TERM * Z :=
  let rb := row_buffer_ptr cb_state_ptr in
  let capture_ptr := capture_ptr cb_state_ptr in
  let cols_used := cols_used rb in
  match indexes_ptr capture_ptr with
  | None =>
      (foldl (fun out out_i => <[Z.to_nat out_i := cell_term cb_state_ptr out_i]> out)
             out_terms_ptr (seqZ 0 cols_used),
       cols_used)
  | Some indexes =>
      (foldl (fun out out_i =>
                let capture_i := indexes !!! Z.to_nat out_i in
                if capture_i <? cols_used then
                  <[Z.to_nat out_i := cell_term cb_state_ptr capture_i]> out
                else
                  <[Z.to_nat out_i := make_output_term [] 0 (cb_options cb_state_ptr)]> out)
             out_terms_ptr (seqZ 0 (capture_size capture_ptr)),
       capture_size capture_ptr)
  end.

Definition output_row_length (cb_state_ptr : callback_state) : Z :=
  if negb (is_null (indexes_ptr (capture_ptr cb_state_ptr)))
  then capture_size (capture_ptr cb_state_ptr)
  else cols_used (row_buffer_ptr cb_state_ptr).

(** [enif_alloc] of an array of [n] terms; the slots hold no term yet. *)
Definition enif_alloc_terms (n : Z) : list ERL_NIF_TERM := replicate (Z.to_nat n) Nil.

(** [None] when one of the two assertions fails. *)
Definition add_row (cb_state_ptr : callback_state) : option callback_state :=
  let out := cb_out_buffer cb_state_ptr in
  let rb := row_buffer_ptr cb_state_ptr in
  if negb (row_n out <? MAX_ROWS_PER_BATCH) then None
  else
    let row_length := output_row_length cb_state_ptr in
    let out_cells_ptr := enif_alloc_terms row_length in
    let '(out_cells_ptr, out_cells_used) := make_output_terms cb_state_ptr out_cells_ptr in
    if negb (out_cells_used =? row_length) then None
    else
      Some {| cb_out_buffer :=
                {| rows := <[Z.to_nat (row_n out) :=
                              enif_make_list_from_array out_cells_ptr out_cells_used]>
                           (rows out);
                   row_n := row_n out + 1 |};
              row_buffer_ptr :=
                {| cells_ptr := cells_ptr rb;
                   allocated_n := allocated_n rb;
                   cols_used := 0 |};
              capture_ptr := capture_ptr cb_state_ptr;
              cb_options := cb_options cb_state_ptr |}.

Definition column_callback (data : list byte) (size : Z) (cb : callback_state)
  : option callback_state :=
  Some (add_cell data size cb).

Definition row_callback (c : Z) (cb : callback_state) : option callback_state :=
  add_row cb.

(** The local copy of the out buffer is cleared, which nobody sees. *)
Definition make_output (cb_state_ptr : callback_state) : ERL_NIF_TERM :=
  let out_buffer := cb_out_buffer cb_state_ptr in
  enif_make_list_from_array (rows out_buffer) (row_n out_buffer).

(** ** The tokenizer *)

(** What the tokenizer reports through its two callbacks: a field with its
    bytes, or the end of a record with the character that ended it. *)
Inductive csv_event : Type :=
| Column (data : list byte)
| Row (c : Z).

(** The interface of [libcsv/csv.h], which the engine only calls.  A call
    returns the parser it leaves behind, the callbacks it made, in order, and
    its return value.  [csv_parse p s] is [csv_parse(&p, s, len, ...)] on the
    [len] bytes [s]. *)
Class Tokenizer : Type := {
  csv_parser : Type;
  csv_init : Z -> csv_parser * Z;
  csv_set_delim : csv_parser -> byte -> csv_parser;
  csv_parse : csv_parser -> list byte -> csv_parser * list csv_event * Z;
  csv_fini : csv_parser -> csv_parser * list csv_event * Z;
  csv_error : csv_parser -> Z;
  csv_strerror : Z -> string
}.

(** The callbacks of one tokenizer call, run in order on the callback
    state. *)
Fixpoint run_callbacks (evs : list csv_event) (cb : callback_state)
  : option callback_state :=
  match evs with
  | [] => Some cb
  | Column data :: evs' =>
      column_callback data (Z.of_nat (length data)) cb ≫= run_callbacks evs'
  | Row c :: evs' => row_callback c cb ≫= run_callbacks evs'
  end.

(** ** Session state *)

Record state `{T : Tokenizer} : Type := mk_state {
  parser : csv_parser;
  st_row_buffer : row_buffer;
  st_csv_buffer : csv_buffer;
  st_capture : capture;
  options : Z
}.

(** What a NIF that can reach an assertion does: it returns a term and leaves
    the session in a state, or the assertion fails.  [OutOfFuel] is the
    model's answer when a loop is cut short; the fuel [parse_one_row] gives
    its loop is never used up (see [parse_one_row_loop_fuel]). *)
Inductive nif_result `{T : Tokenizer} : Type :=
| Return (t : ERL_NIF_TERM) (s : state)
| AssertFailed
| OutOfFuel.

Section Engine.
Context `{T : Tokenizer}.

Definition set_parser (s : state) (p : csv_parser) : state :=
  {| parser := p;
     st_row_buffer := st_row_buffer s;
     st_csv_buffer := st_csv_buffer s;
     st_capture := st_capture s;
     options := options s |}.

Definition set_st_row_buffer (s : state) (rb : row_buffer) : state :=
  {| parser := parser s;
     st_row_buffer := rb;
     st_csv_buffer := st_csv_buffer s;
     st_capture := st_capture s;
     options := options s |}.

Definition set_st_csv_buffer (s : state) (b : csv_buffer) : state :=
  {| parser := parser s;
     st_row_buffer := st_row_buffer s;
     st_csv_buffer := b;
     st_capture := st_capture s;
     options := options s |}.

Definition set_st_capture (s : state) (c : capture) : state :=
  {| parser := parser s;
     st_row_buffer := st_row_buffer s;
     st_csv_buffer := st_csv_buffer s;
     st_capture := c;
     options := options s |}.

Definition init_row_buffer (row_buffer_ptr : row_buffer) : row_buffer :=
  {| cells_ptr := []; allocated_n := 0; cols_used := 0 |}.

(** [consumed] is not written: it keeps what the memory held. *)
Definition init_csv_buffer (csv_buffer_ptr : csv_buffer) : csv_buffer :=
  {| csv_data_ptr := None; csv_size := 0; consumed := consumed csv_buffer_ptr |}.

(** [size] is not written either. *)
Definition init_capture (capture_ptr : capture) : capture :=
  {| indexes_ptr := None; capture_size := capture_size capture_ptr |}.

(** [raw] is the memory [enif_alloc_resource] returned, before any field is
    written.  When [enif_alloc_resource] returns [NULL], [init_state] writes
    nothing and returns [NULL]; [init] has that branch. *)
Definition init_state (raw : state) (options : Z) : state :=
  {| parser := parser raw;
     st_row_buffer := init_row_buffer (st_row_buffer raw);
     st_csv_buffer := init_csv_buffer (st_csv_buffer raw);
     st_capture := init_capture (st_capture raw);
     options := options |}.

Fixpoint extract_capture_list_loop (n : nat) (i : Z) (tail : ERL_NIF_TERM)
    (dst_ptr : list Z) : bool * list Z :=
  match n with
  | O => (true, dst_ptr)
  | S n' =>
      match enif_get_list_cell tail with
      | None => (false, dst_ptr)
      | Some (head, tail') =>
          match enif_get_uint head with
          | None => (false, dst_ptr)
          | Some item =>
              extract_capture_list_loop n' (i + 1) tail' (<[Z.to_nat i := item]> dst_ptr)
          end
      end
  end.

Definition extract_capture_list (lst : ERL_NIF_TERM) (len : Z) (dst_ptr : list Z)
  : bool * list Z :=
  extract_capture_list_loop (Z.to_nat len) 0 lst dst_ptr.

Definition update_capture (state_ptr : state) (lst : ERL_NIF_TERM) : bool * state :=
  match enif_get_list_length lst with
  | None => (false, state_ptr)
  | Some len =>
      let indexes_new_ptr := replicate (Z.to_nat len) 0 in
      match extract_capture_list lst len indexes_new_ptr with
      | (false, _) => (false, state_ptr)
      | (true, indexes_new_ptr) =>
          (true, set_st_capture state_ptr
                   {| indexes_ptr := Some indexes_new_ptr; capture_size := len |})
      end
  end.

(** [cb_state_ptr] is the caller's local variable, whose 64 row slots are
    not written here. *)
Definition init_callback_state (cb_state_ptr : callback_state) (state_ptr : state)
  : callback_state :=
  {| cb_out_buffer := {| rows := rows (cb_out_buffer cb_state_ptr); row_n := 0 |};
     row_buffer_ptr := st_row_buffer state_ptr;
     capture_ptr := st_capture state_ptr;
     cb_options := options state_ptr |}.

(** A local [struct callback_state] before [init_callback_state]. *)
Definition local_callback_state : callback_state :=
  {| cb_out_buffer :=
       {| rows := replicate (Z.to_nat MAX_ROWS_PER_BATCH) Nil; row_n := 0 |};
     row_buffer_ptr := {| cells_ptr := []; allocated_n := 0; cols_used := 0 |};
     capture_ptr := {| indexes_ptr := None; capture_size := 0 |};
     cb_options := 0 |}.

(** A local [struct csv_chunk] before [get_csv_chunk]. *)
Definition local_csv_chunk : csv_chunk :=
  {| chunk_data_ptr := []; chunk_size := 0 |}.

Definition is_csv_buffer_empty (csv_buffer_ptr : csv_buffer) : bool :=
  is_null (csv_data_ptr csv_buffer_ptr)
  || (csv_size csv_buffer_ptr =? 0)
  || (csv_size csv_buffer_ptr <=? consumed csv_buffer_ptr).

Definition get_csv_chunk (chunk_ptr : csv_chunk) (state_ptr : state) (max_len : Z)
  : csv_chunk * state :=
  let csv_buffer_ptr := st_csv_buffer state_ptr in
  if is_csv_buffer_empty csv_buffer_ptr then
    ({| chunk_data_ptr := chunk_data_ptr chunk_ptr; chunk_size := 0 |}, state_ptr)
  else
    let bytes_read := min (csv_size csv_buffer_ptr - consumed csv_buffer_ptr) max_len in
    ({| chunk_data_ptr :=
          drop (Z.to_nat (consumed csv_buffer_ptr)) (deref (csv_data_ptr csv_buffer_ptr));
        chunk_size := bytes_read |},
     set_st_csv_buffer state_ptr
       {| csv_data_ptr := csv_data_ptr csv_buffer_ptr;
          csv_size := csv_size csv_buffer_ptr;
          consumed := consumed csv_buffer_ptr + bytes_read |}).

Definition ok_tuple (term : ERL_NIF_TERM) : ERL_NIF_TERM :=
  enif_make_tuple2 (enif_make_atom "ok") term.

Definition error_tuple (term : ERL_NIF_TERM) : ERL_NIF_TERM :=
  enif_make_tuple2 (enif_make_atom "error") term.

Definition error (reason : string) : ERL_NIF_TERM :=
  error_tuple (enif_make_string reason).

Definition error2 (reason1 reason2 : string) : ERL_NIF_TERM :=
  error_tuple (enif_make_tuple2 (enif_make_string reason1) (enif_make_string reason2)).

(** The term [{error, eob}] of [parse] and [parse_one_row]. *)
Definition eob : ERL_NIF_TERM :=
  enif_make_tuple2 (enif_make_atom "error") (enif_make_atom "eob").

Definition set_delimiter (parser_ptr : csv_parser) (options : Z) : csv_parser :=
  let delimiter :=
    if negb (Z.land options OPTION_DELIM_TABS =? 0) then CSV_TAB else CSV_COMMA in
  csv_set_delim parser_ptr delimiter.

(** ** The exported functions

    Each takes the session its first argument resolves to; the checks of
    [argc] and of the resource handle are left to the caller. *)

(** [init] returns no session when it fails.  [resource] is what
    [enif_alloc_resource] returns inside [init_state]: [None] for [NULL], or
    the memory of the new session. *)
Definition init (resource : option state) (argv0 : ERL_NIF_TERM)
  : ERL_NIF_TERM * option state :=
  match enif_get_uint argv0 with
  | None => (enif_make_badarg, None)
  | Some options =>
      match resource with
      | None => (error "init_state failed", None)
      | Some raw =>
          let state_ptr := init_state raw options in
          let '(p, rc) := csv_init 0 in
          if negb (rc =? 0) then (error "csv_init failed", None)
          else (ok_tuple Resource, Some (set_parser state_ptr (set_delimiter p options)))
      end
  end.

Definition close (state_ptr : state) : nif_result :=
  let cb_state := init_callback_state local_callback_state state_ptr in
  let '(p, evs, rc) := csv_fini (parser state_ptr) in
  match run_callbacks evs cb_state with
  | None => AssertFailed
  | Some cb_state =>
      let s := set_st_row_buffer (set_parser state_ptr p) (row_buffer_ptr cb_state) in
      if negb (rc =? 0) then Return (error "csv_fini failed") s
      else Return (ok_tuple (make_output cb_state)) s
  end.

(** [alloc_ok] tells whether the [enif_alloc] of the new buffer succeeds. *)
Definition feed (state_ptr : state) (argv1 : ERL_NIF_TERM) (alloc_ok : bool)
  : ERL_NIF_TERM * state :=
  match enif_inspect_binary argv1 with
  | None => (enif_make_badarg, state_ptr)
  | Some csv_bin =>
      let csv_buffer_ptr := st_csv_buffer state_ptr in
      let bin_size := Z.of_nat (length csv_bin) in
      if negb (is_csv_buffer_empty csv_buffer_ptr) then
        (error "csv buffer not empty", state_ptr)
      else if negb alloc_ok then
        (error "could not allocate csv buffer",
         set_st_csv_buffer state_ptr
           {| csv_data_ptr := None;
              csv_size := csv_size csv_buffer_ptr;
              consumed := consumed csv_buffer_ptr |})
      else
        (enif_make_atom "ok",
         set_st_csv_buffer state_ptr
           {| csv_data_ptr := Some (memcpy (enif_alloc bin_size) csv_bin bin_size);
              csv_size := bin_size;
              consumed := 0 |})
  end.

Definition set_capture (state_ptr : state) (argv1 : ERL_NIF_TERM)
  : ERL_NIF_TERM * state :=
  match update_capture state_ptr argv1 with
  | (false, s) => (enif_make_badarg, s)
  | (true, s) => (enif_make_atom "ok", s)
  end.

(** One tokenizer call of a driving function on a chunk: the callbacks run
    on [cb_state], and the parser and the row buffer they leave are written
    back to the session.  [None] when an assertion fails. *)
Definition tokenize_chunk (state_ptr : state) (chunk : csv_chunk)
    (cb_state : callback_state) : option (state * callback_state * Z) :=
  let '(p, evs, ret) :=
    csv_parse (parser state_ptr)
              (take (Z.to_nat (chunk_size chunk)) (chunk_data_ptr chunk)) in
  cb ← run_callbacks evs cb_state;
  Some (set_st_row_buffer (set_parser state_ptr p) (row_buffer_ptr cb), cb, ret).

(** The [while] loop of [parse_one_row]; [fuel] bounds its iterations. *)
Fixpoint parse_one_row_loop (fuel : nat) (state_ptr : state)
    (cb_state : callback_state) (chunk : csv_chunk) : nif_result :=
  if row_n (cb_out_buffer cb_state) =? 0 then
    match fuel with
    | O => OutOfFuel
    | S fuel' =>
        let '(chunk, state_ptr) := get_csv_chunk chunk state_ptr 1 in
        if chunk_size chunk =? 0 then Return eob state_ptr
        else
          match tokenize_chunk state_ptr chunk cb_state with
          | None => AssertFailed
          | Some (state_ptr, cb_state, ret) =>
              if negb (ret =? chunk_size chunk) then
                Return (error2 "csv_parse failed"
                               (csv_strerror (csv_error (parser state_ptr))))
                       state_ptr
              else parse_one_row_loop fuel' state_ptr cb_state chunk
          end
    end
  else Return (ok_tuple (make_output cb_state)) state_ptr.

(** Every iteration that does not return takes one byte of the buffer, so
    one more iteration than there are bytes left is enough. *)
Definition parse_one_row (state_ptr : state) : nif_result :=
  let b := st_csv_buffer state_ptr in
  parse_one_row_loop (S (Z.to_nat (csv_size b - consumed b))) state_ptr
    (init_callback_state local_callback_state state_ptr) local_csv_chunk.

Definition parse (state_ptr : state) : nif_result :=
  let '(chunk, state_ptr) := get_csv_chunk local_csv_chunk state_ptr MAX_PARSE_SIZE in
  if chunk_size chunk =? 0 then Return eob state_ptr
  else
    let cb_state := init_callback_state local_callback_state state_ptr in
    match tokenize_chunk state_ptr chunk cb_state with
    | None => AssertFailed
    | Some (state_ptr, cb_state, ret) =>
        if negb (ret =? chunk_size chunk) then
          Return (error2 "csv_parse failed"
                         (csv_strerror (csv_error (parser state_ptr))))
                 state_ptr
        else Return (ok_tuple (make_output cb_state)) state_ptr
    end.

End Engine.

(** ** A reference tokenizer *)

(** Modelled from the spec: the tokenizer's grammar ([libcsv]) is not among
    the sources.  This instance follows the spec's glossary: a field is the
    value between two delimiters, a record is a line ended by a line feed,
    empty lines are skipped, and finalization flushes an unterminated last
    record.  It has no quoting.  The theorems below hold for every tokenizer;
    this one serves to run them. *)
Record simple_parser : Type := mk_simple_parser {
  sp_delim : byte;
  sp_row_begun : bool;
  sp_field : list byte
}.

Definition CSV_LF : byte := x0a.

Definition simple_step (p : simple_parser) (b : byte) : simple_parser * list csv_event :=
  if Byte.eqb b CSV_LF then
    if sp_row_begun p then
      ({| sp_delim := sp_delim p; sp_row_begun := false; sp_field := [] |},
       [Column (sp_field p); Row (Z_of_byte b)])
    else (p, [])
  else if Byte.eqb b (sp_delim p) then
    ({| sp_delim := sp_delim p; sp_row_begun := true; sp_field := [] |},
     [Column (sp_field p)])
  else
    ({| sp_delim := sp_delim p; sp_row_begun := true; sp_field := sp_field p ++ [b] |},
     []).

Fixpoint simple_parse (p : simple_parser) (s : list byte)
  : simple_parser * list csv_event :=
  match s with
  | [] => (p, [])
  | b :: s' =>
      let '(p1, e1) := simple_step p b in
      let '(p2, e2) := simple_parse p1 s' in
      (p2, e1 ++ e2)
  end.

Definition simple_fini (p : simple_parser) : simple_parser * list csv_event * Z :=
  if sp_row_begun p then
    ({| sp_delim := sp_delim p; sp_row_begun := false; sp_field := [] |},
     [Column (sp_field p); Row (-1)], 0)
  else (p, [], 0).

#[global] Instance simple_tokenizer : Tokenizer := {|
  csv_parser := simple_parser;
  csv_init := fun _ =>
    ({| sp_delim := CSV_COMMA; sp_row_begun := false; sp_field := [] |}, 0);
  csv_set_delim := fun p d =>
    {| sp_delim := d; sp_row_begun := sp_row_begun p; sp_field := sp_field p |};
  csv_parse := fun p s =>
    let '(p', evs) := simple_parse p s in (p', evs, Z.of_nat (length s));
  csv_fini := simple_fini;
  csv_error := fun _ => 0;
  csv_strerror := fun _ => "success"%string
|}.

(** ** The tokenizer's contract *)

Definition is_row (e : csv_event) : bool :=
  match e with Row _ => true | Column _ => false end.

(** The number of records a list of callbacks completes. *)
Definition count_rows (evs : list csv_event) : Z :=
  Z.of_nat (length (filter (fun e => is_row e = true) evs)).

Section Contract.
Context (T : Tokenizer).

(** Every completed record consumes at least two bytes: one byte of content
    and the byte that ends it.  The first record a call completes may have
    its content in an earlier call, so a call on [n] bytes completes at most
    [(n + 1) / 2] records. *)
Definition min_record_bytes : Prop :=
  forall (p : csv_parser) (s : list byte),
    2 * count_rows (csv_parse p s).1.2 <= Z.of_nat (length s) + 1.

(** The tokenizer accepts every input: [csv_parse] returns the length it
    was given. *)
Definition accepts_all : Prop :=
  forall (p : csv_parser) (s : list byte),
    (csv_parse p s).2 = Z.of_nat (length s).

(** The tokenizer resumes across calls: cutting the input into two calls
    leaves the same parser behind and makes the same callbacks. *)
Definition resumable : Prop :=
  forall (p : csv_parser) (a b : list byte),
    (csv_parse p (a ++ b)).1.1 = (csv_parse (csv_parse p a).1.1 b).1.1 /\
    (csv_parse p (a ++ b)).1.2 = (csv_parse p a).1.2 ++ (csv_parse (csv_parse p a).1.1 b).1.2.

End Contract.

(** ** Well-formed data *)

(** A cell without a block has no capacity ([empty_cell]). *)
Definition cell_wf (c : cell) : Prop :=
  cell_data_ptr c = None -> allocated_size c = 0.

(** [allocated_n] is the length of the cell array and [cols_used] is within
    it. *)
Definition row_buffer_wf (rb : row_buffer) : Prop :=
  allocated_n rb = Z.of_nat (length (cells_ptr rb)) /\
  0 <= cols_used rb <= allocated_n rb.

(** [size] is the length of the index array, whose entries are values of
    type [unsigned]. *)
Definition capture_wf (c : capture) : Prop :=
  forall indexes, indexes_ptr c = Some indexes ->
    capture_size c = Z.of_nat (length indexes) /\
    Forall (fun i => 0 <= i < UINT_MODULUS) indexes.

(** [size] is the length of the block and [consumed] is an offset into
    it. *)
Definition csv_buffer_wf (b : csv_buffer) : Prop :=
  0 <= consumed b /\
  forall data, csv_data_ptr b = Some data -> csv_size b = Z.of_nat (length data).

(** ** Rows and projection *)

(** The row [add_row] hands to [enif_make_list_from_array]. *)
Definition output_row (cb_state_ptr : callback_state) : list ERL_NIF_TERM :=
  let '(out_cells_ptr, out_cells_used) :=
    make_output_terms cb_state_ptr (enif_alloc_terms (output_row_length cb_state_ptr)) in
  take (Z.to_nat out_cells_used) out_cells_ptr.

(** The output value of a field. *)
Definition field_term (options : Z) (data : list byte) : ERL_NIF_TERM :=
  make_output_term data (Z.of_nat (length data)) options.

(** The projection of a row as the spec words it: without a capture, all
    the fields in order; with one, for each index the field at that index, or
    an empty value when the row has no such column. *)
Definition project_row (indices : option (list Z)) (options : Z)
    (fields : list (list byte)) : list ERL_NIF_TERM :=
  match indices with
  | None => field_term options <$> fields
  | Some indexes =>
      (fun i => if i <? Z.of_nat (length fields)
                then field_term options (fields !!! Z.to_nat i)
                else field_term options []) <$> indexes
  end.

(** The field callbacks of one row, in column order. *)
Definition add_cells (fields : list (list byte)) (cb : callback_state) : callback_state :=
  foldl (fun cb data => add_cell data (Z.of_nat (length data)) cb) cb fields.

(** A sequence of writes into one cell. *)
Definition store_cells (c : cell) (writes : list (list byte)) : cell :=
  foldl (fun c data => store_cell c data (Z.of_nat (length data))) c writes.

(** ** Driving a session until end of buffer *)

Fixpoint list_of_term (t : ERL_NIF_TERM) : option (list ERL_NIF_TERM) :=
  match t with
  | Nil => Some []
  | Cons hd tl => cons hd <$> list_of_term tl
  | _ => None
  end.

(** The rows of a batch [{ok, Rows}]. *)
Definition batch_rows (t : ERL_NIF_TERM) : option (list ERL_NIF_TERM) :=
  match t with
  | Tuple2 (Atom a) l => if String.eqb a "ok" then list_of_term l else None
  | _ => None
  end.

Definition is_eob (t : ERL_NIF_TERM) : bool :=
  match t with
  | Tuple2 (Atom a) (Atom b) => String.eqb a "error" && String.eqb b "eob"
  | _ => false
  end.

(** The caller's loop: call [drive] until it answers [{error, eob}] and
    concatenate the rows of the batches, at most [fuel] calls.  [None] when
    a call fails or the fuel runs out. *)
Fixpoint drain `{T : Tokenizer} (drive : state -> nif_result) (fuel : nat) (s : state)
  : option (list ERL_NIF_TERM * state) :=
  match fuel with
  | O => None
  | S fuel' =>
      match drive s with
      | Return t s' =>
          if is_eob t then Some ([], s')
          else
            rs ← batch_rows t;
            '(rest, s'') ← drain drive fuel' s';
            Some (rs ++ rest, s'')
      | _ => None
      end
  end.

(** The bytes of the input buffer that are not consumed yet. *)
Definition unconsumed (b : csv_buffer) : list byte :=
  if is_csv_buffer_empty b then []
  else take (Z.to_nat (csv_size b - consumed b))
            (drop (Z.to_nat (consumed b)) (deref (csv_data_ptr b))).

(** The callbacks without the batch bound: the rows a list of callbacks
    completes, and the row buffer it leaves. *)
Fixpoint emit (evs : list csv_event) (cb : callback_state)
  : list ERL_NIF_TERM * row_buffer :=
  match evs with
  | [] => ([], row_buffer_ptr cb)
  | Column data :: evs' => emit evs' (add_cell data (Z.of_nat (length data)) cb)
  | Row _ :: evs' =>
      let rb := row_buffer_ptr cb in
      let '(rs, rb') :=
        emit evs' (set_row_buffer cb {| cells_ptr := cells_ptr rb;
                                       allocated_n := allocated_n rb;
                                       cols_used := 0 |}) in
      (foldr Cons Nil (output_row cb) :: rs, rb')
  end.

(** ** The rows of a byte stream *)

Section Stream.
Context `{T : Tokenizer}.

(** The session after a driving function took [n] bytes from the buffer and
    the tokenizer call on them left the parser [p] and the row buffer
    [rb]. *)
Definition consume (s : state) (n : Z) (p : csv_parser) (rb : row_buffer) : state :=
  {| parser := p;
     st_row_buffer := rb;
     st_csv_buffer :=
       {| csv_data_ptr := csv_data_ptr (st_csv_buffer s);
          csv_size := csv_size (st_csv_buffer s);
          consumed := consumed (st_csv_buffer s) + n |};
     st_capture := st_capture s;
     options := options s |}.

(** One tokenizer call on the bytes [bs], taken from the buffer: the rows it
    completes and the session it leaves. *)
Definition run_chunk (s : state) (bs : list byte) : list ERL_NIF_TERM * state :=
  let '(p, evs, _) := csv_parse (parser s) bs in
  let '(rs, rb) := emit evs (init_callback_state local_callback_state s) in
  (rs, consume s (Z.of_nat (length bs)) p rb).

(** The bytes [bs] given to the tokenizer one call per byte. *)
Fixpoint run_bytes (bs : list byte) (s : state) : list ERL_NIF_TERM * state :=
  match bs with
  | [] => ([], s)
  | b :: bs' =>
      let '(rs, s1) := run_chunk s [b] in
      let '(rs', s2) := run_bytes bs' s1 in
      (rs ++ rs', s2)
  end.

End Stream.

(** ** Sample data *)

(** A callback state at the start of a batch and of a row, with capture
    [cap] and binary output. *)
Definition sample_callback_state (cap : capture) : callback_state :=
  {| cb_out_buffer :=
       {| rows := replicate (Z.to_nat MAX_ROWS_PER_BATCH) Nil; row_n := 0 |};
     row_buffer_ptr := {| cells_ptr := []; allocated_n := 0; cols_used := 0 |};
     capture_ptr := cap;
     cb_options := OPTION_RETURN_BINARY |}.

Definition sample_capture : capture :=
  {| indexes_ptr := Some [2; 0; 5]; capture_size := 3 |}.

Definition no_capture : capture :=
  {| indexes_ptr := None; capture_size := 0 |}.

(** The fields [a], [b], [c], [d]. *)
Definition sample_fields : list (list byte) := [[x61]; [x62]; [x63]; [x64]].

(** Memory of a session of the reference tokenizer before [init_state]:
    every field holds some leftover value. *)
Definition raw_state : state (T := simple_tokenizer) :=
  {| parser := {| sp_delim := x00; sp_row_begun := true; sp_field := [x7a] |};
     st_row_buffer := {| cells_ptr := []; allocated_n := 7; cols_used := 9 |};
     st_csv_buffer := {| csv_data_ptr := None; csv_size := 3; consumed := 5 |};
     st_capture := {| indexes_ptr := None; capture_size := 4 |};
     options := 1 |}.

(** A session of the reference tokenizer, created with binary output. *)
Definition new_session : state (T := simple_tokenizer) :=
  match init (Some raw_state) (Integer OPTION_RETURN_BINARY) with
  | (_, Some s) => s
  | (_, None) => raw_state
  end.

(** The same session after [input] was fed into it. *)
Definition fed_session (input : string) : state (T := simple_tokenizer) :=
  (feed new_session (Binary (list_byte_of_string input)) true).2.

(** The Erlang list of the integers [zs]. *)
Definition integer_list (zs : list Z) : ERL_NIF_TERM := foldr Cons Nil (Integer <$> zs).

(** An error of the engine that is fatal: an [{error, Reason}] other than
    [{error, eob}]. *)
Definition is_fatal_error (t : ERL_NIF_TERM) : bool :=
  match t with
  | Tuple2 (Atom a) reason => String.eqb a "error" && negb (is_eob t)
  | _ => false
  end.

(** A callback state in the middle of a second row: the first row,
    [sample_fields], was collected without a capture list, so every cell
    holds one of its fields; then [sample_capture] was set and the first
    field of the second row has been delivered. *)
Definition reused_callback_state : callback_state :=
  let rb := row_buffer_ptr (add_cells sample_fields (sample_callback_state no_capture)) in
  {| cb_out_buffer := cb_out_buffer (sample_callback_state no_capture);
     row_buffer_ptr :=
       {| cells_ptr := cells_ptr rb; allocated_n := allocated_n rb; cols_used := 1 |};
     capture_ptr := sample_capture;
     cb_options := OPTION_RETURN_BINARY |}.

(** ** Storage invariants *)

(** A cell and its block agree: a cell without a block has no capacity and
    no data; the block of a cell has [allocated_size] bytes, of which the
    first [data_size] are the data. *)
Definition cell_ok (c : cell) : Prop :=
  match cell_data_ptr c with
  | None => allocated_size c = 0 /\ data_size c = 0
  | Some block =>
      Z.of_nat (length block) = allocated_size c /\
      0 <= data_size c <= allocated_size c
  end.

(** The row buffer is well formed and so is each of its cells. *)
Definition row_buffer_ok (rb : row_buffer) : Prop :=
  row_buffer_wf rb /\ Forall cell_ok (cells_ptr rb).

(** The callbacks [evs], arriving when the row has [cols] columns, stay
    within what the counters and the cell sizes can hold: no row reaches
    [2^32 - 5] columns and no field is longer than [2^53] bytes. *)
Fixpoint events_fit (evs : list csv_event) (cols : Z) : Prop :=
  match evs with
  | [] => True
  | Column data :: evs' =>
      cols + 5 < UINT_MODULUS /\ Z.of_nat (length data) <= 2 ^ 53 /\
      events_fit evs' (cols + 1)
  | Row _ :: evs' => events_fit evs' 0
  end.

(** No cell of [old] is missing from [new] or has lost capacity there. *)
Definition cells_grow (old new : list cell) : Prop :=
  forall i c, old !! i = Some c ->
    exists c', new !! i = Some c' /\ allocated_size c <= allocated_size c'.

(** The callback state with another capture list, as the callbacks see it
    after [set_capture] changed the session. *)
Definition set_capture_ptr (cb : callback_state) (c : capture) : callback_state :=
  {| cb_out_buffer := cb_out_buffer cb;
     row_buffer_ptr := row_buffer_ptr cb;
     capture_ptr := c;
     cb_options := cb_options cb |}.

(** The bytes of an output value: of a binary, or of a string, whose
    characters are the codes of the bytes. *)
Fixpoint string_bytes (t : ERL_NIF_TERM) : option (list byte) :=
  match t with
  | Nil => Some []
  | Cons (Integer z) tl =>
      b ← Byte.of_N (Z.to_N z);
      bs ← string_bytes tl;
      Some (b :: bs)
  | _ => None
  end.

Definition term_bytes (options : Z) (t : ERL_NIF_TERM) : option (list byte) :=
  if negb (Z.land options OPTION_RETURN_BINARY =? 0) then enif_inspect_binary t
  else string_bytes t.

Section EngineViews.
Context `{T : Tokenizer}.

(** The bytes [parse] hands to the tokenizer when the buffer is not
    empty. *)
Definition parse_bytes (s : state) : list byte :=
  let b := st_csv_buffer s in
  take (Z.to_nat (min (csv_size b - consumed b) MAX_PARSE_SIZE))
       (drop (Z.to_nat (consumed b)) (deref (csv_data_ptr b))).

(** Two sessions that differ in the input buffer at most. *)
Definition same_stream (s1 s2 : state) : Prop :=
  parser s1 = parser s2 /\
  st_row_buffer s1 = st_row_buffer s2 /\
  st_capture s1 = st_capture s2 /\
  options s1 = options s2.

(** What a driving function may change from [s] to [s']: the parser and the
    row buffer, and [consumed], which only advances and does not pass the
    end of the buffer.  The capture list, the options and the bytes of the
    buffer stay. *)
Definition driven (s s' : state) : Prop :=
  st_capture s' = st_capture s /\
  options s' = options s /\
  csv_data_ptr (st_csv_buffer s') = csv_data_ptr (st_csv_buffer s) /\
  csv_size (st_csv_buffer s') = csv_size (st_csv_buffer s) /\
  consumed (st_csv_buffer s) <= consumed (st_csv_buffer s')
    <= Z.max (consumed (st_csv_buffer s)) (csv_size (st_csv_buffer s)).

(** The term of a result, when the call returned. *)
Definition result_term (r : nif_result) : option ERL_NIF_TERM :=
  match r with
  | Return t _ => Some t
  | _ => None
  end.

End EngineViews.

(** ** A tokenizer that refuses its input *)

(** A tokenizer for the error paths: [csv_parse] consumes nothing and makes
    no callback, [csv_fini] fails, and the error text is [refused]. *)
#[global] Instance refusing_tokenizer : Tokenizer | 10 := {|
  csv_parser := unit;
  csv_init := fun _ => (tt, 0);
  csv_set_delim := fun p _ => p;
  csv_parse := fun p _ => (p, [], 0);
  csv_fini := fun p => (p, [], 1);
  csv_error := fun _ => 1;
  csv_strerror := fun _ => "refused"%string
|}.

(** A session of the refusing tokenizer after [input] was fed into it. *)
Definition refused_session (input : list byte) : state (T := refusing_tokenizer) :=
  let raw : state (T := refusing_tokenizer) :=
    @mk_state refusing_tokenizer tt
      {| cells_ptr := []; allocated_n := 0; cols_used := 0 |}
      {| csv_data_ptr := None; csv_size := 0; consumed := 0 |}
      {| indexes_ptr := None; capture_size := 0 |}
      0 in
  match init (Some raw) (Integer 0) with
  | (_, Some s) => (feed s (Binary input) true).2
  | (_, None) => raw
  end.


(** An input of two rows, [a,b] and [c,d]. *)
Definition two_row_input : string := "a,b
c,d
".
(** * Properties *)

(** Linear arithmetic over the limits of the engine. *)
Ltac limits :=
  unfold MAX_ROWS_PER_BATCH, MAX_PARSE_SIZE, UINT_MODULUS in *; lia.

(** ** Cells *)

Lemma double_of_size_t_exact (n : Z) : 0 <= n <= 2 ^ 53 -> double_of_size_t n = n.
Proof.
  intros Hn. unfold double_of_size_t.
  destruct (n <? 2 ^ 53) eqn:Hlt; [done|].
  apply Z.ltb_ge in Hlt. assert (n = 2 ^ 53) as -> by lia. by vm_compute.
Qed.

Lemma align_cell_size_exact (s : Z) :
  0 <= s <= 2 ^ 53 -> align_cell_size s = (s + 15) / 16 * 16.
Proof. intros Hs. unfold align_cell_size. by rewrite double_of_size_t_exact. Qed.

Lemma align_cell_size_bounds (s : Z) :
  0 <= s <= 2 ^ 53 ->
  align_cell_size s mod 16 = 0 /\ s <= align_cell_size s < s + 16.
Proof.
  intros Hs. rewrite align_cell_size_exact by done.
  split; [apply Z_mod_mult|].
  pose proof (Z.div_mod (s + 15) 16 ltac:(lia)).
  pose proof (Z.mod_pos_bound (s + 15) 16 ltac:(lia)). lia.
Qed.

Lemma align_cell_size_least (s m : Z) :
  0 <= s <= 2 ^ 53 -> m mod 16 = 0 -> s <= m -> align_cell_size s <= m.
Proof.
  intros Hs Hm Hsm. destruct (align_cell_size_bounds s Hs) as [Ha Hb].
  apply Z.mod_divide in Hm as [k ->]; [|lia].
  apply Z.mod_divide in Ha as [j Hj]; [|lia]. lia.
Qed.

Lemma store_cell_allocated_size (c : cell) (data : list byte) (size : Z) :
  allocated_size (store_cell c data size) = allocated_size (ensure_cell_size c size).
Proof. done. Qed.

Lemma ensure_cell_size_mono (c : cell) (s : Z) :
  cell_wf c -> 0 <= s <= 2 ^ 53 ->
  allocated_size c <= allocated_size (ensure_cell_size c s).
Proof.
  intros Hwf Hs. unfold ensure_cell_size.
  destruct (cell_data_ptr c) as [d|] eqn:Hd; simpl.
  - destruct (allocated_size c <? s) eqn:Hlt; simpl; [|lia].
    apply Z.ltb_lt in Hlt. pose proof (align_cell_size_bounds s Hs). lia.
  - rewrite (Hwf Hd). pose proof (align_cell_size_bounds s Hs). lia.
Qed.

Lemma store_cell_wf (c : cell) (data : list byte) (size : Z) :
  cell_wf (store_cell c data size).
Proof. by intros ?. Qed.

Lemma store_cells_mono (writes : list (list byte)) (c : cell) :
  cell_wf c ->
  Forall (fun data => Z.of_nat (length data) <= 2 ^ 53) writes ->
  allocated_size c <= allocated_size (store_cells c writes).
Proof.
  intros Hwf Hall. revert c Hwf.
  induction Hall as [|data writes Hdata _ IH]; intros c Hwf; simpl; [done|].
  etrans; [|apply IH, store_cell_wf].
  rewrite store_cell_allocated_size. apply ensure_cell_size_mono; [done|lia].
Qed.

(** C6.  A required size that exceeds the capacity of a cell makes
    [ensure_cell_size] replace the block by a fresh one whose size is the
    smallest multiple of 16 that is at least the required size; a size that
    fits leaves the capacity as it is (and the whole cell, when it has a
    block); so the capacity never decreases along a sequence of writes.
    Sizes are at most [2^53], the range in which the [double] arithmetic of
    [align_cell_size] is exact. *)
Theorem ensure_cell_size_growth (c : cell) (s : Z) (writes : list (list byte)) :
  cell_wf c ->
  0 <= s <= 2 ^ 53 ->
  Forall (fun data => Z.of_nat (length data) <= 2 ^ 53) writes ->
  (allocated_size c < s ->
     let c' := ensure_cell_size c s in
     cell_data_ptr c' = Some (enif_alloc (allocated_size c')) /\
     allocated_size c' mod 16 = 0 /\
     s <= allocated_size c' /\
     forall m, m mod 16 = 0 -> s <= m -> allocated_size c' <= m) /\
  (s <= allocated_size c ->
     allocated_size (ensure_cell_size c s) = allocated_size c /\
     (cell_data_ptr c <> None -> ensure_cell_size c s = c)) /\
  allocated_size c <= allocated_size (store_cells c writes).
Proof.
  intros Hwf Hs Hall. split_and!.
  - intros Hlt. unfold ensure_cell_size.
    apply Z.ltb_lt in Hlt. rewrite Hlt, orb_true_r. simpl.
    pose proof (align_cell_size_bounds s Hs) as [? ?].
    split_and!; [done|done|lia|]. intros m. by apply align_cell_size_least.
  - intros Hle. unfold ensure_cell_size.
    destruct (cell_data_ptr c) as [d|] eqn:Hd; simpl.
    + apply Z.ltb_ge in Hle. by rewrite Hle.
    + rewrite (Hwf Hd) in *. assert (s = 0) as -> by lia. done.
  - by apply store_cells_mono.
Qed.

Lemma ensure_cell_size_growth_witness :
  let c := {| cell_data_ptr := Some (enif_alloc 16); allocated_size := 16; data_size := 3 |} in
  let writes := [[x61; x62]; enif_alloc 40; [x63]] in
  cell_wf c /\
  allocated_size (ensure_cell_size c 17) = 32 /\
  ensure_cell_size c 16 = c /\
  allocated_size c <= allocated_size (store_cells c writes).
Proof.
  intros c writes.
  assert (Hwf : cell_wf c) by (intros H; discriminate H).
  assert (Hall : Forall (fun data : list byte => Z.of_nat (length data) <= 2 ^ 53) writes).
  { repeat constructor; vm_compute; discriminate. }
  destruct (ensure_cell_size_growth c 17 writes Hwf ltac:(lia) Hall) as (Hgrow & _ & Hmono).
  destruct (ensure_cell_size_growth c 16 writes Hwf ltac:(lia) Hall) as (_ & Hfit & _).
  destruct (Hgrow ltac:(simpl; lia)) as (_ & Hmod & Hge & Hleast).
  destruct (Hfit ltac:(simpl; lia)) as (_ & Hsame).
  split_and!; [exact Hwf| |apply Hsame; discriminate|exact Hmono].
  specialize (Hleast 32 eq_refl ltac:(lia)).
  apply Z.mod_divide in Hmod as [k Hk]; lia.
Defined.

(** ** Loops that fill an array *)

Lemma foldl_insert_range {A} (x : A) (tl pre : list A) :
  foldl (fun l i => <[Z.to_nat i := x]> l) (pre ++ tl)
        (seqZ (Z.of_nat (length pre)) (Z.of_nat (length tl)))
  = pre ++ replicate (length tl) x.
Proof.
  revert pre. induction tl as [|y tl IH]; intros pre; [done|].
  rewrite seqZ_cons by (simpl; lia). simpl foldl.
  rewrite Nat2Z.id.
  replace (length pre) with (length pre + 0)%nat at 1 by lia.
  rewrite insert_app_r. simpl.
  replace (Z.succ (Z.of_nat (length pre))) with (Z.of_nat (length (pre ++ [x])))
    by (rewrite length_app; simpl; lia).
  replace (Z.pred (Z.of_nat (S (length tl)))) with (Z.of_nat (length tl)) by lia.
  rewrite (cons_middle x pre tl), app_assoc, IH. by rewrite <- app_assoc.
Qed.

Lemma foldl_fill_prefix {A} (f : Z -> A) (g : list A -> Z -> list A) (k : nat)
    (out : list A) :
  (forall out i, g out i = <[Z.to_nat i := f i]> out) ->
  (k <= length out)%nat ->
  foldl g out (seqZ 0 (Z.of_nat k)) = (f <$> seqZ 0 (Z.of_nat k)) ++ drop k out.
Proof.
  intros Hg. induction k as [|k IH]; intros Hk.
  - by rewrite seqZ_nil, drop_0 by lia.
  - rewrite seqZ_S, foldl_app, fmap_app, IH by lia. simpl.
    rewrite Hg, Z.add_0_l, Nat2Z.id.
    replace k with (length (f <$> seqZ 0 (Z.of_nat k)) + 0)%nat at 1
      by (rewrite length_fmap, length_seqZ; lia).
    rewrite insert_app_r.
    destruct (lookup_lt_is_Some_2 out k ltac:(lia)) as [y Hy].
    rewrite (drop_S out y k Hy). simpl.
    by rewrite <- app_assoc.
Qed.

Lemma foldl_fill {A} (f : Z -> A) (g : list A -> Z -> list A) (n : Z) (out : list A) :
  (forall out i, g out i = <[Z.to_nat i := f i]> out) ->
  length out = Z.to_nat n -> 0 <= n ->
  foldl g out (seqZ 0 n) = f <$> seqZ 0 n.
Proof.
  intros Hg Hlen Hn. rewrite <- (Z2Nat.id n) by done.
  rewrite (foldl_fill_prefix f) by (done || lia).
  by rewrite <- Hlen, drop_all, app_nil_r.
Qed.

Lemma fmap_lookup_total_seqZ `{Inhabited A} (l : list A) :
  (fun i => l !!! Z.to_nat i) <$> seqZ 0 (Z.of_nat (length l)) = l.
Proof.
  apply list_eq. intros i. rewrite list_lookup_fmap.
  destruct (decide (i < length l)%nat) as [Hi|Hi].
  - rewrite lookup_seqZ_lt by lia. simpl. rewrite Z.add_0_l, Nat2Z.id.
    destruct (lookup_lt_is_Some_2 l i Hi) as [x Hx].
    by rewrite (list_lookup_total_correct _ _ _ Hx).
  - rewrite lookup_seqZ_ge, lookup_ge_None_2 by lia. done.
Qed.

(** ** The row buffer *)

Lemma uint_small (z : Z) : 0 <= z < UINT_MODULUS -> uint z = z.
Proof. intros Hz. unfold uint. by apply Z.mod_small. Qed.

Lemma unsigned_int_roundtrip (u : Z) :
  0 <= u < UINT_MODULUS -> unsigned_of_int (int_of_unsigned u) = u.
Proof.
  unfold unsigned_of_int, int_of_unsigned, UINT_MODULUS. intros Hu.
  destruct (u <? 2 ^ 31); [by apply Z.mod_small|].
  replace (u - 2 ^ 32) with (u + (-1) * 2 ^ 32) by lia.
  rewrite Z.mod_add by lia. by apply Z.mod_small.
Qed.

Lemma ensure_row_buffer_space_grow (rb : row_buffer) :
  row_buffer_wf rb ->
  cols_used rb = allocated_n rb ->
  allocated_n rb + 5 < UINT_MODULUS ->
  ensure_row_buffer_space rb =
    {| cells_ptr := cells_ptr rb ++ replicate 5 empty_cell;
       allocated_n := allocated_n rb + 5;
       cols_used := cols_used rb |}.
Proof.
  intros [Hn Hc] Heq Hmax. unfold ensure_row_buffer_space.
  rewrite Heq, Z.eqb_refl, uint_small by lia. f_equal.
  rewrite Hn, Nat2Z.id, firstn_all.
  replace (Z.to_nat (Z.of_nat (length (cells_ptr rb)) + 5))
    with (length (cells_ptr rb) + 5)%nat by lia.
  rewrite drop_replicate_add.
  replace (Z.of_nat (length (cells_ptr rb)) + 5 - Z.of_nat (length (cells_ptr rb)))
    with (Z.of_nat (length (replicate 5 uninitialized_cell)))
    by (rewrite length_replicate; lia).
  rewrite foldl_insert_range. by rewrite length_replicate.
Qed.

Lemma ensure_row_buffer_space_keep (rb : row_buffer) :
  cols_used rb <> allocated_n rb -> ensure_row_buffer_space rb = rb.
Proof.
  intros Hne. unfold ensure_row_buffer_space.
  by apply Z.eqb_neq in Hne as ->.
Qed.

(** After [ensure_row_buffer_space] the next column has a slot, and no slot
    that was there changed. *)
Lemma ensure_row_buffer_space_spec (rb : row_buffer) :
  row_buffer_wf rb ->
  cols_used rb + 5 < UINT_MODULUS ->
  let rb' := ensure_row_buffer_space rb in
  row_buffer_wf rb' /\
  cols_used rb' = cols_used rb /\
  cols_used rb < allocated_n rb' /\
  allocated_n rb <= allocated_n rb' /\
  (forall i, cells_ptr rb' !!! i = cells_ptr rb !!! i).
Proof.
  intros Hwf Hmax. pose proof Hwf as [Hn Hc].
  destruct (decide (cols_used rb = allocated_n rb)) as [Heq|Hne].
  - cbv zeta. rewrite ensure_row_buffer_space_grow by (done || lia).
    cbn [cells_ptr allocated_n cols_used].
    split_and!; [|done|lia|lia|].
    + split; cbn [cells_ptr allocated_n cols_used];
        [rewrite length_app, length_replicate; lia|lia].
    + intros i. destruct (decide (i < length (cells_ptr rb))%nat).
      * by rewrite lookup_total_app_l.
      * rewrite lookup_total_app_r by lia.
        rewrite (list_lookup_total_alt (cells_ptr rb)), lookup_ge_None_2 by lia.
        destruct (decide (i - length (cells_ptr rb) < 5)%nat).
        -- by rewrite lookup_total_replicate_2.
        -- rewrite (list_lookup_total_alt (replicate _ _)), lookup_ge_None_2; [done|].
           rewrite length_replicate. lia.
  - cbv zeta. rewrite ensure_row_buffer_space_keep by done.
    split_and!; [done|done|lia|lia|done].
Qed.

Lemma is_output_column_no_capture (cb : callback_state) (col_i : Z) :
  indexes_ptr (capture_ptr cb) = None -> is_output_column cb col_i = true.
Proof. intros H. unfold is_output_column. by rewrite H. Qed.

Lemma is_output_column_capture (cb : callback_state) (indexes : list Z) (col : Z) :
  capture_wf (capture_ptr cb) ->
  indexes_ptr (capture_ptr cb) = Some indexes ->
  0 <= col < UINT_MODULUS ->
  is_output_column cb (int_of_unsigned col) = true <-> col ∈ indexes.
Proof.
  intros Hwf Hidx Hcol. destruct (Hwf _ Hidx) as [Hsize _].
  unfold is_output_column. rewrite Hidx, Hsize, unsigned_int_roundtrip by done.
  rewrite existsb_exists. setoid_rewrite <- list_elem_of_In.
  setoid_rewrite elem_of_seqZ. setoid_rewrite Z.eqb_eq.
  rewrite list_elem_of_lookup. split.
  - intros (i & Hi & ->). exists (Z.to_nat i).
    apply list_lookup_lookup_total_lt. lia.
  - intros (i & Hi). exists (Z.of_nat i). apply lookup_lt_Some in Hi as Hlt.
    split; [lia|]. rewrite Nat2Z.id. by rewrite (list_lookup_total_correct _ _ _ Hi).
Qed.

Lemma store_cell_holds (c : cell) (data : list byte) :
  cell_holds (store_cell c data (Z.of_nat (length data))) data.
Proof.
  split; [done|]. simpl. unfold memcpy. rewrite Nat2Z.id, firstn_all. eauto.
Qed.

Lemma cell_holds_bytes (c : cell) (data : list byte) :
  cell_holds c data -> cell_bytes c = data.
Proof.
  intros [Hsize [rest Hptr]]. unfold cell_bytes.
  rewrite Hsize, Hptr, Nat2Z.id. simpl. by rewrite take_app_length.
Qed.

Lemma make_output_term_holds (c : cell) (data : list byte) (options : Z) :
  cell_holds c data ->
  make_output_term (deref (cell_data_ptr c)) (data_size c) options
  = field_term options data.
Proof.
  intros [Hsize [rest Hptr]]. unfold field_term, make_output_term.
  rewrite Hsize, Hptr. simpl.
  unfold make_output_binary, enif_make_string_len, memcpy.
  by rewrite !Nat2Z.id, take_app_length, firstn_all.
Qed.

Lemma is_output_column_ext (cb cb' : callback_state) (col_i : Z) :
  capture_ptr cb' = capture_ptr cb ->
  is_output_column cb' col_i = is_output_column cb col_i.
Proof. intros H. unfold is_output_column. by rewrite H. Qed.

(** One field callback: the column counter advances by one, the cell of the
    column holds the field when the column is an output column and is left
    alone otherwise, and no other cell changes. *)
Lemma add_cell_spec (cb : callback_state) (data : list byte) :
  row_buffer_wf (row_buffer_ptr cb) ->
  cols_used (row_buffer_ptr cb) + 5 < UINT_MODULUS ->
  let k := cols_used (row_buffer_ptr cb) in
  let cb' := add_cell data (Z.of_nat (length data)) cb in
  capture_ptr cb' = capture_ptr cb /\
  cb_options cb' = cb_options cb /\
  cb_out_buffer cb' = cb_out_buffer cb /\
  row_buffer_wf (row_buffer_ptr cb') /\
  cols_used (row_buffer_ptr cb') = k + 1 /\
  (forall i, i <> Z.to_nat k ->
     cells_ptr (row_buffer_ptr cb') !!! i = cells_ptr (row_buffer_ptr cb) !!! i) /\
  (is_output_column cb (int_of_unsigned k) = true ->
     cell_holds (cells_ptr (row_buffer_ptr cb') !!! Z.to_nat k) data) /\
  (is_output_column cb (int_of_unsigned k) = false ->
     cells_ptr (row_buffer_ptr cb') !!! Z.to_nat k
     = cells_ptr (row_buffer_ptr cb) !!! Z.to_nat k).
Proof.
  intros Hwf Hmax k cb'.
  destruct (ensure_row_buffer_space_spec _ Hwf Hmax)
    as ([Hn' Hc'] & Hcols & Hroom & Hgrow & Hsame).
  subst cb'. unfold add_cell.
  set (rb := ensure_row_buffer_space (row_buffer_ptr cb)) in *.
  cbn [set_row_buffer capture_ptr cb_options cb_out_buffer row_buffer_ptr
       cells_ptr allocated_n cols_used].
  rewrite Hcols. fold k.
  assert (Hk : (Z.to_nat k < length (cells_ptr rb))%nat) by (subst k; lia).
  split_and!; try done.
  - split; cbn [cells_ptr allocated_n cols_used].
    + destruct (is_output_column cb _); [rewrite length_insert|]; done.
    + rewrite uint_small by (subst k; lia). subst k. lia.
  - apply uint_small. subst k. destruct Hwf. lia.
  - intros i Hi. destruct (is_output_column cb _); [|apply Hsame].
    rewrite list_lookup_total_insert_ne by done. apply Hsame.
  - intros ->. rewrite list_lookup_total_insert_eq by done.
    apply store_cell_holds.
  - intros ->. apply Hsame.
Qed.

(** The field callbacks of a row that starts at column [cols_used]. *)
Lemma add_cells_spec (fields : list (list byte)) (cb : callback_state) :
  row_buffer_wf (row_buffer_ptr cb) ->
  cols_used (row_buffer_ptr cb) + Z.of_nat (length fields) + 5 <= UINT_MODULUS ->
  let k := cols_used (row_buffer_ptr cb) in
  let cb' := add_cells fields cb in
  capture_ptr cb' = capture_ptr cb /\
  cb_options cb' = cb_options cb /\
  cb_out_buffer cb' = cb_out_buffer cb /\
  row_buffer_wf (row_buffer_ptr cb') /\
  cols_used (row_buffer_ptr cb') = k + Z.of_nat (length fields) /\
  (forall i, (i < Z.to_nat k)%nat ->
     cells_ptr (row_buffer_ptr cb') !!! i = cells_ptr (row_buffer_ptr cb) !!! i) /\
  (forall j data, fields !! j = Some data ->
     is_output_column cb (int_of_unsigned (k + Z.of_nat j)) = true ->
     cell_holds (cells_ptr (row_buffer_ptr cb') !!! Z.to_nat (k + Z.of_nat j)) data).
Proof.
  revert cb. induction fields as [|d fields IH]; intros cb Hwf Hmax k cb'.
  { subst cb'. simpl. split_and!; try done. lia. }
  subst cb'. cbn [add_cells foldl]. fold (add_cells fields (add_cell d (Z.of_nat (length d)) cb)).
  simpl length in Hmax.
  destruct (add_cell_spec cb d Hwf ltac:(lia))
    as (Hcap1 & Hopt1 & Hout1 & Hwf1 & Hcols1 & Hother1 & Hhold1 & _).
  fold k in Hcols1, Hother1, Hhold1.
  destruct (IH _ Hwf1 ltac:(lia))
    as (Hcap2 & Hopt2 & Hout2 & Hwf2 & Hcols2 & Hkeep2 & Hhold2).
  rewrite Hcols1 in Hcols2, Hkeep2, Hhold2.
  assert (0 <= k) by (subst k; destruct Hwf; lia).
  split_and!; try congruence.
  - rewrite Hcols2. simpl length. lia.
  - intros i Hi. rewrite Hkeep2 by lia. apply Hother1. lia.
  - intros [|j] data Hj Hcol; simpl in Hj.
    + injection Hj as ->. rewrite Z.add_0_r in *.
      rewrite Hkeep2 by lia. by apply Hhold1.
    + replace (k + Z.of_nat (S j)) with (k + 1 + Z.of_nat j) in * by lia.
      apply Hhold2; [done|]. by rewrite (is_output_column_ext cb).
Qed.

(** ** Output rows *)

Lemma output_row_no_capture (cb : callback_state) :
  indexes_ptr (capture_ptr cb) = None ->
  0 <= cols_used (row_buffer_ptr cb) ->
  output_row cb = cell_term cb <$> seqZ 0 (cols_used (row_buffer_ptr cb)).
Proof.
  intros Hidx Hcols. unfold output_row, make_output_terms, output_row_length.
  rewrite Hidx. cbn [is_null negb].
  rewrite (foldl_fill (cell_term cb)); [|done| |done].
  - apply take_ge. rewrite length_fmap, length_seqZ. lia.
  - unfold enif_alloc_terms. by rewrite length_replicate.
Qed.

Lemma output_row_capture (cb : callback_state) (indexes : list Z) :
  capture_wf (capture_ptr cb) ->
  indexes_ptr (capture_ptr cb) = Some indexes ->
  output_row cb =
    (fun i => if i <? cols_used (row_buffer_ptr cb) then cell_term cb i
              else make_output_term [] 0 (cb_options cb)) <$> indexes.
Proof.
  intros Hwf Hidx. destruct (Hwf _ Hidx) as [Hsize _].
  unfold output_row, make_output_terms, output_row_length.
  rewrite Hidx. cbn [is_null negb].
  rewrite (foldl_fill
             (fun out_i =>
                let capture_i := indexes !!! Z.to_nat out_i in
                if capture_i <? cols_used (row_buffer_ptr cb) then cell_term cb capture_i
                else make_output_term [] 0 (cb_options cb))).
  - rewrite take_ge by (rewrite length_fmap, length_seqZ; lia).
    rewrite Hsize.
    rewrite <- (fmap_lookup_total_seqZ indexes) at 2.
    by rewrite <- list_fmap_compose.
  - intros out i. cbv zeta. by destruct (_ <? _).
  - unfold enif_alloc_terms. by rewrite length_replicate.
  - lia.
Qed.

(** The two assertions of [add_row]: the second never fails, the first
    holds while the batch has room. *)
Lemma add_row_spec (cb : callback_state) :
  row_n (cb_out_buffer cb) < MAX_ROWS_PER_BATCH ->
  add_row cb =
    Some {| cb_out_buffer :=
              {| rows := <[Z.to_nat (row_n (cb_out_buffer cb)) :=
                            foldr Cons Nil (output_row cb)]> (rows (cb_out_buffer cb));
                 row_n := row_n (cb_out_buffer cb) + 1 |};
            row_buffer_ptr :=
              {| cells_ptr := cells_ptr (row_buffer_ptr cb);
                 allocated_n := allocated_n (row_buffer_ptr cb);
                 cols_used := 0 |};
            capture_ptr := capture_ptr cb;
            cb_options := cb_options cb |}.
Proof.
  intros Hroom. unfold add_row, output_row, enif_make_list_from_array.
  apply Z.ltb_lt in Hroom. rewrite Hroom. cbn [negb].
  destruct (make_output_terms cb _) as [out used] eqn:Hout.
  assert (used = output_row_length cb) as ->.
  { unfold make_output_terms, output_row_length in *.
    destruct (indexes_ptr (capture_ptr cb)); by injection Hout as _ <-. }
  by rewrite Z.eqb_refl.
Qed.

Lemma add_row_full (cb : callback_state) :
  MAX_ROWS_PER_BATCH <= row_n (cb_out_buffer cb) -> add_row cb = None.
Proof.
  intros Hfull. unfold add_row. apply Z.ltb_ge in Hfull. by rewrite Hfull.
Qed.

Lemma run_callbacks_columns (fields : list (list byte)) (evs : list csv_event)
    (cb : callback_state) :
  run_callbacks ((Column <$> fields) ++ evs) cb = run_callbacks evs (add_cells fields cb).
Proof.
  revert cb. induction fields as [|d fields IH]; intros cb; [done|].
  simpl. apply IH.
Qed.

(** The row a completed record puts out is the projection of its fields. *)
Lemma output_row_project (fields : list (list byte)) (cb : callback_state) :
  row_buffer_wf (row_buffer_ptr cb) ->
  capture_wf (capture_ptr cb) ->
  cols_used (row_buffer_ptr cb) = 0 ->
  Z.of_nat (length fields) + 5 <= UINT_MODULUS ->
  output_row (add_cells fields cb)
  = project_row (indexes_ptr (capture_ptr cb)) (cb_options cb) fields.
Proof.
  intros Hwf Hcwf Hzero Hmax.
  destruct (add_cells_spec fields cb Hwf ltac:(lia))
    as (Hcap & Hopt & _ & Hwf' & Hcols & _ & Hhold).
  rewrite Hzero, Z.add_0_l in Hcols. rewrite Hzero in Hhold.
  set (cb' := add_cells fields cb) in *.
  assert (Hterm : forall i data, fields !! i = Some data ->
            is_output_column cb (int_of_unsigned (Z.of_nat i)) = true ->
            cell_term cb' (Z.of_nat i) = field_term (cb_options cb) data).
  { intros i data Hi Hcol. unfold cell_term. rewrite Hopt.
    apply make_output_term_holds. rewrite <- (Z.add_0_l (Z.of_nat i)).
    by apply Hhold. }
  destruct (indexes_ptr (capture_ptr cb)) as [indexes|] eqn:Hidx.
  - rewrite (output_row_capture cb' indexes) by (by rewrite Hcap).
    rewrite Hcols, Hopt. simpl. apply list_fmap_ext. intros j i Hj.
    destruct (Hcwf _ Hidx) as [_ Hrange].
    assert (0 <= i < UINT_MODULUS) as Hi.
    { rewrite Forall_lookup in Hrange. by apply (Hrange j). }
    destruct (i <? Z.of_nat (length fields)) eqn:Hlt; [|done].
    apply Z.ltb_lt in Hlt.
    destruct (lookup_lt_is_Some_2 fields (Z.to_nat i) ltac:(lia)) as [data Hdata].
    rewrite (list_lookup_total_correct _ _ _ Hdata).
    rewrite <- (Z2Nat.id i) at 1 by lia. apply Hterm; [done|].
    rewrite Z2Nat.id by lia.
    apply (is_output_column_capture cb indexes); [done..|].
    apply list_elem_of_lookup. eauto.
  - rewrite output_row_no_capture by (rewrite ?Hcap; done || lia).
    rewrite Hcols. simpl.
    rewrite <- (fmap_lookup_total_seqZ fields) at 2.
    rewrite <- list_fmap_compose. apply list_fmap_ext. intros j i Hj.
    apply lookup_seqZ in Hj as [-> Hlt]. rewrite Z.add_0_l. simpl.
    destruct (lookup_lt_is_Some_2 fields j ltac:(lia)) as [data Hdata].
    rewrite Nat2Z.id, (list_lookup_total_correct _ _ _ Hdata).
    apply Hterm; [done|]. by apply is_output_column_no_capture.
Qed.

(** The callbacks of one record: its fields, then the end of the record. *)
Lemma completed_row (fields : list (list byte)) (c : Z) (cb : callback_state) :
  row_buffer_wf (row_buffer_ptr cb) ->
  capture_wf (capture_ptr cb) ->
  cols_used (row_buffer_ptr cb) = 0 ->
  Z.of_nat (length fields) + 5 <= UINT_MODULUS ->
  0 <= row_n (cb_out_buffer cb) < MAX_ROWS_PER_BATCH ->
  length (rows (cb_out_buffer cb)) = Z.to_nat MAX_ROWS_PER_BATCH ->
  exists cb',
    run_callbacks ((Column <$> fields) ++ [Row c]) cb = Some cb' /\
    row_n (cb_out_buffer cb') = row_n (cb_out_buffer cb) + 1 /\
    cols_used (row_buffer_ptr cb') = 0 /\
    rows (cb_out_buffer cb') !! Z.to_nat (row_n (cb_out_buffer cb))
    = Some (foldr Cons Nil
              (project_row (indexes_ptr (capture_ptr cb)) (cb_options cb) fields)).
Proof.
  intros Hwf Hcwf Hzero Hmax Hrow Hlen.
  destruct (add_cells_spec fields cb Hwf ltac:(lia)) as (_ & _ & Hout & _).
  rewrite run_callbacks_columns. simpl. unfold row_callback.
  rewrite add_row_spec by (rewrite Hout; lia). simpl.
  eexists. split; [done|]. simpl. rewrite Hout. split_and!; [done..|].
  rewrite list_lookup_insert_eq by limits.
  by rewrite output_row_project.
Qed.

Lemma sample_row_buffer_wf (cap : capture) :
  row_buffer_wf (row_buffer_ptr (sample_callback_state cap)).
Proof. split; simpl; lia. Qed.

Lemma sample_capture_wf : capture_wf sample_capture.
Proof.
  intros indexes [= <-]. split; [done|].
  repeat constructor; limits.
Qed.

Lemma no_capture_wf : capture_wf no_capture.
Proof. intros indexes H. discriminate H. Qed.




(** C9.  Without a capture list, a completed row is put out as the values of
    all its columns, in column order, whatever the number of columns; there
    are [cols_used] of them.  The last part says what [add_row] puts out
    without a capture list from any row buffer: the cells below [cols_used],
    in order. *)
Theorem no_capture_identity (fields : list (list byte)) (c : Z) (cb : callback_state) :
  row_buffer_wf (row_buffer_ptr cb) ->
  indexes_ptr (capture_ptr cb) = None ->
  cols_used (row_buffer_ptr cb) = 0 ->
  Z.of_nat (length fields) + 5 <= UINT_MODULUS ->
  0 <= row_n (cb_out_buffer cb) < MAX_ROWS_PER_BATCH ->
  length (rows (cb_out_buffer cb)) = Z.to_nat MAX_ROWS_PER_BATCH ->
  exists cb',
    run_callbacks ((Column <$> fields) ++ [Row c]) cb = Some cb' /\
    rows (cb_out_buffer cb') !! Z.to_nat (row_n (cb_out_buffer cb))
    = Some (foldr Cons Nil (field_term (cb_options cb) <$> fields)) /\
    length (field_term (cb_options cb) <$> fields) = length fields /\
    cols_used (row_buffer_ptr (add_cells fields cb)) = Z.of_nat (length fields) /\
    (forall cb1, indexes_ptr (capture_ptr cb1) = None ->
       0 <= cols_used (row_buffer_ptr cb1) ->
       output_row cb1 = cell_term cb1 <$> seqZ 0 (cols_used (row_buffer_ptr cb1))).
Proof.
  intros Hwf Hidx Hzero Hmax Hrow Hlen.
  assert (Hcwf : capture_wf (capture_ptr cb)) by (intros ? H; congruence).
  destruct (completed_row fields c cb Hwf Hcwf Hzero Hmax Hrow Hlen)
    as (cb' & Hrun & _ & _ & Hout).
  rewrite Hidx in Hout. exists cb'.
  split_and!; [done|done|apply length_fmap| |apply output_row_no_capture].
  destruct (add_cells_spec fields cb Hwf ltac:(lia)) as (_ & _ & _ & _ & -> & _).
  lia.
Qed.

Lemma no_capture_identity_witness :
  exists cb',
    run_callbacks ((Column <$> sample_fields) ++ [Row 10])
                  (sample_callback_state no_capture) = Some cb' /\
    rows (cb_out_buffer cb') !! 0%nat
    = Some (foldr Cons Nil [Binary [x61]; Binary [x62]; Binary [x63]; Binary [x64]]).
Proof.
  destruct (no_capture_identity sample_fields 10 (sample_callback_state no_capture))
    as (cb' & Hrun & Hout & _).
  - apply sample_row_buffer_wf.
  - reflexivity.
  - reflexivity.
  - vm_compute. discriminate.
  - vm_compute. split; discriminate || reflexivity.
  - reflexivity.
  - exists cb'. split; [exact Hrun|exact Hout].
Defined.

(** C10.  A field callback under a capture list copies the field into the
    cell of the current column exactly when the column is in the list: then
    the cell holds the field's bytes, and otherwise no cell changes, so the
    cell of a column that is not captured keeps what an earlier row left in
    it.  The column counter grows by one either way.  (A slot the row buffer
    did not have before reads as [empty_cell], which is what a new slot
    holds.) *)
Theorem add_cell_captured_only (data : list byte) (indexes : list Z)
    (cb : callback_state) :
  row_buffer_wf (row_buffer_ptr cb) ->
  capture_wf (capture_ptr cb) ->
  indexes_ptr (capture_ptr cb) = Some indexes ->
  cols_used (row_buffer_ptr cb) + 5 < UINT_MODULUS ->
  let k := cols_used (row_buffer_ptr cb) in
  let cb' := add_cell data (Z.of_nat (length data)) cb in
  cols_used (row_buffer_ptr cb') = k + 1 /\
  (is_output_column cb (int_of_unsigned k) = true <-> k ∈ indexes) /\
  (k ∈ indexes ->
     cell_bytes (cells_ptr (row_buffer_ptr cb') !!! Z.to_nat k) = data) /\
  (k ∉ indexes ->
     forall i, cells_ptr (row_buffer_ptr cb') !!! i = cells_ptr (row_buffer_ptr cb) !!! i) /\
  (forall i, i <> Z.to_nat k ->
     cells_ptr (row_buffer_ptr cb') !!! i = cells_ptr (row_buffer_ptr cb) !!! i).
Proof.
  intros Hwf Hcwf Hidx Hmax k cb'.
  destruct (add_cell_spec cb data Hwf Hmax)
    as (_ & _ & _ & _ & Hcols & Hother & Hhold & Hkeep).
  fold k cb' in Hcols, Hother, Hhold, Hkeep.
  assert (Hk : 0 <= k < UINT_MODULUS) by (subst k; destruct Hwf; lia).
  pose proof (is_output_column_capture cb indexes k Hcwf Hidx Hk) as Hiff.
  split_and!; [done|done| | |done].
  - intros Hin. apply cell_holds_bytes, Hhold, Hiff, Hin.
  - intros Hnotin i. destruct (decide (i = Z.to_nat k)) as [->|Hne]; [|by apply Hother].
    apply Hkeep. destruct (is_output_column cb _); [|done].
    exfalso. by apply Hnotin, Hiff.
Qed.

(** ** Callbacks of one tokenizer call *)

Lemma count_rows_nonneg (evs : list csv_event) : 0 <= count_rows evs.
Proof. unfold count_rows. lia. Qed.

Lemma count_rows_column (data : list byte) (evs : list csv_event) :
  count_rows (Column data :: evs) = count_rows evs.
Proof. done. Qed.

Lemma count_rows_row (c : Z) (evs : list csv_event) :
  count_rows (Row c :: evs) = 1 + count_rows evs.
Proof. unfold count_rows. rewrite filter_cons_True by done. simpl length. lia. Qed.

Lemma count_rows_app (evs1 evs2 : list csv_event) :
  count_rows (evs1 ++ evs2) = count_rows evs1 + count_rows evs2.
Proof. unfold count_rows. rewrite filter_app, length_app. lia. Qed.

(** [emit] reads the row buffer, the capture and the options only. *)
Lemma emit_ext (evs : list csv_event) (cb1 cb2 : callback_state) :
  row_buffer_ptr cb1 = row_buffer_ptr cb2 ->
  capture_ptr cb1 = capture_ptr cb2 ->
  cb_options cb1 = cb_options cb2 ->
  emit evs cb1 = emit evs cb2.
Proof.
  revert cb1 cb2. induction evs as [|[data|c] evs IH]; intros cb1 cb2 Hrb Hcap Hopt.
  - simpl. by rewrite Hrb.
  - simpl. apply IH; destruct cb1, cb2; simpl in *; by subst.
  - simpl. destruct cb1 as [o1 rb1 cap1 opt1], cb2 as [o2 rb2 cap2 opt2].
    simpl in *. subst.
    by rewrite (IH (set_row_buffer (mk_callback_state o1 rb2 cap2 opt2) _)
                   (set_row_buffer (mk_callback_state o2 rb2 cap2 opt2)
                      {| cells_ptr := cells_ptr rb2; allocated_n := allocated_n rb2;
                         cols_used := 0 |})).
Qed.

Lemma emit_length (evs : list csv_event) (cb : callback_state) :
  Z.of_nat (length (emit evs cb).1) = count_rows evs.
Proof.
  revert cb. induction evs as [|[data|c] evs IH]; intros cb.
  - done.
  - simpl. by rewrite IH.
  - simpl. rewrite count_rows_row.
    match goal with
    | |- context [emit evs ?c] => rewrite <- (IH c); destruct (emit evs c)
    end.
    simpl length. lia.
Qed.

Lemma take_S_insert {A} (l : list A) (n : nat) (x : A) :
  (n < length l)%nat -> take (S n) (<[n := x]> l) = take n l ++ [x].
Proof.
  intros Hn. rewrite (take_S_r _ _ x) by (by apply list_lookup_insert_eq).
  by rewrite take_insert_ge.
Qed.

(** While the batch has room for the records a call completes, no
    assertion fails, and the callbacks add the rows of [emit] to the
    batch. *)
Lemma run_callbacks_emit (evs : list csv_event) (cb : callback_state) :
  0 <= row_n (cb_out_buffer cb) ->
  row_n (cb_out_buffer cb) + count_rows evs <= MAX_ROWS_PER_BATCH ->
  length (rows (cb_out_buffer cb)) = Z.to_nat MAX_ROWS_PER_BATCH ->
  exists cb',
    run_callbacks evs cb = Some cb' /\
    row_n (cb_out_buffer cb') = row_n (cb_out_buffer cb) + count_rows evs /\
    take (Z.to_nat (row_n (cb_out_buffer cb'))) (rows (cb_out_buffer cb'))
    = take (Z.to_nat (row_n (cb_out_buffer cb))) (rows (cb_out_buffer cb))
      ++ (emit evs cb).1 /\
    row_buffer_ptr cb' = (emit evs cb).2 /\
    capture_ptr cb' = capture_ptr cb /\
    cb_options cb' = cb_options cb /\
    length (rows (cb_out_buffer cb')) = Z.to_nat MAX_ROWS_PER_BATCH.
Proof.
  revert cb. induction evs as [|[data|c] evs IH]; intros cb Hpos Hroom Hlen.
  - exists cb. unfold count_rows. simpl.
    rewrite Z.add_0_r, app_nil_r. done.
  - rewrite count_rows_column in *.
    destruct (IH (add_cell data (Z.of_nat (length data)) cb)) as (cb' & H);
      [done..|].
    exists cb'. exact H.
  - rewrite count_rows_row in *. pose proof (count_rows_nonneg evs).
    simpl. unfold row_callback. rewrite add_row_spec by lia. simpl.
    match goal with |- context [run_callbacks evs ?c] => set (cb1 := c) end.
    destruct (IH cb1) as (cb' & Hrun & Hn & Htake & Hrb & Hcap & Hopt & Hlen');
      [simpl; lia..| by simpl; rewrite length_insert |].
    exists cb'. split; [done|]. simpl in Hn, Htake, Hcap, Hopt.
    rewrite (emit_ext evs (set_row_buffer cb _) cb1) by done.
    destruct (emit evs cb1) as [rs rb] eqn:Hemit. simpl in *.
    split_and!; [lia| |done..].
    rewrite Htake. replace (Z.to_nat (row_n (cb_out_buffer cb) + 1))
      with (S (Z.to_nat (row_n (cb_out_buffer cb)))) by lia.
    rewrite take_S_insert by limits.
    by rewrite <- app_assoc.
Qed.

Lemma emit_app (evs1 evs2 : list csv_event) (cb : callback_state) :
  emit (evs1 ++ evs2) cb =
    ((emit evs1 cb).1 ++ (emit evs2 (set_row_buffer cb (emit evs1 cb).2)).1,
     (emit evs2 (set_row_buffer cb (emit evs1 cb).2)).2).
Proof.
  revert cb. induction evs1 as [|[data|c] evs1 IH]; intros cb.
  - simpl. rewrite (emit_ext evs2 (set_row_buffer cb _) cb) by done.
    by destruct (emit evs2 cb).
  - simpl. rewrite IH.
    by rewrite (emit_ext evs2 (set_row_buffer (add_cell _ _ cb) _) (set_row_buffer cb
                  (emit evs1 (add_cell data (Z.of_nat (length data)) cb)).2)).
  - simpl. rewrite IH.
    match goal with |- context [emit evs1 ?c] => set (cb1 := c) end.
    destruct (emit evs1 cb1) as [rs1 rb1] eqn:H1. simpl.
    by rewrite (emit_ext evs2 (set_row_buffer cb1 rb1) (set_row_buffer cb rb1)).
Qed.

Lemma list_of_term_list (rs : list ERL_NIF_TERM) :
  list_of_term (foldr Cons Nil rs) = Some rs.
Proof. induction rs as [|r rs IH]; simpl; [done|]. by rewrite IH. Qed.

(** ** The input buffer *)

Lemma memcpy_fresh (data : list byte) :
  memcpy (enif_alloc (Z.of_nat (length data))) data (Z.of_nat (length data)) = data.
Proof.
  unfold memcpy, enif_alloc.
  rewrite Nat2Z.id, firstn_all, drop_ge by (by rewrite length_replicate).
  apply app_nil_r.
Qed.

Section Session.
Context `{T : Tokenizer}.

Lemma is_csv_buffer_empty_false (b : csv_buffer) :
  is_csv_buffer_empty b = false <->
  csv_data_ptr b <> None /\ csv_size b <> 0 /\ consumed b < csv_size b.
Proof.
  unfold is_csv_buffer_empty. rewrite !orb_false_iff, Z.eqb_neq, Z.leb_gt.
  destruct (csv_data_ptr b); simpl; intuition congruence.
Qed.

Lemma is_csv_buffer_empty_true (b : csv_buffer) :
  is_csv_buffer_empty b = true <->
  csv_data_ptr b = None \/ csv_size b = 0 \/ csv_size b <= consumed b.
Proof.
  unfold is_csv_buffer_empty. rewrite !orb_true_iff, Z.eqb_eq, Z.leb_le.
  destruct (csv_data_ptr b); simpl; intuition congruence.
Qed.

(** C2.  While the input buffer holds bytes that are not consumed, [feed]
    answers with the error "csv buffer not empty" and changes nothing.  When
    the buffer was never fed, is empty, or is consumed to its end, [feed]
    (its allocation succeeding) answers [ok], replaces the buffer by a copy
    of the new bytes and sets [consumed] to 0.  So a new session accepts a
    first feed, and a feed right after a successful feed of at least one byte
    is refused. *)
Theorem feed_single_buffer (s : state) (data data2 : list byte) (alloc_ok : bool) :
  let fed := set_st_csv_buffer s
               {| csv_data_ptr := Some data;
                  csv_size := Z.of_nat (length data);
                  consumed := 0 |} in
  (csv_data_ptr (st_csv_buffer s) <> None ->
   csv_size (st_csv_buffer s) <> 0 ->
   consumed (st_csv_buffer s) < csv_size (st_csv_buffer s) ->
   feed s (Binary data) alloc_ok = (error "csv buffer not empty", s)) /\
  (csv_data_ptr (st_csv_buffer s) = None \/
   csv_size (st_csv_buffer s) = 0 \/
   csv_size (st_csv_buffer s) <= consumed (st_csv_buffer s) ->
   feed s (Binary data) true = (enif_make_atom "ok", fed)) /\
  (forall raw options,
     s = init_state raw options -> feed s (Binary data) true = (enif_make_atom "ok", fed)) /\
  (data <> [] ->
   feed fed (Binary data2) alloc_ok = (error "csv buffer not empty", fed)).
Proof.
  intros fed.
  assert (Hno : forall s' : state, is_csv_buffer_empty (st_csv_buffer s') = false ->
            feed s' (Binary data2) alloc_ok = (error "csv buffer not empty", s')).
  { intros s' He. unfold feed. simpl. by rewrite He. }
  assert (Hok : is_csv_buffer_empty (st_csv_buffer s) = true ->
            feed s (Binary data) true = (enif_make_atom "ok", fed)).
  { intros He. unfold feed. simpl. rewrite He. simpl. by rewrite memcpy_fresh. }
  split_and!.
  - intros Hp Hs Hc. unfold feed. simpl.
    by rewrite (proj2 (is_csv_buffer_empty_false _)).
  - intros H. by apply Hok, is_csv_buffer_empty_true.
  - intros raw o ->. by apply Hok.
  - intros Hdata. apply Hno, is_csv_buffer_empty_false. subst fed. simpl.
    destruct data; [done|]. simpl length. split_and!; [done|lia|lia].
Qed.

(** ** The capture list *)

Lemma enif_get_list_length_integer_list (zs : list Z) :
  enif_get_list_length (integer_list zs) = Some (Z.of_nat (length zs)).
Proof.
  induction zs as [|z zs IH]; [done|].
  change (integer_list (z :: zs)) with (Cons (Integer z) (integer_list zs)).
  cbn [enif_get_list_length]. rewrite IH. simpl. f_equal. lia.
Qed.

Lemma enif_get_uint_Some (t : ERL_NIF_TERM) (z : Z) :
  enif_get_uint t = Some z <-> t = Integer z /\ 0 <= z < UINT_MODULUS.
Proof.
  split.
  - destruct t; try done. simpl.
    destruct (0 <=? z0) eqn:H0; [|done]. destruct (z0 <? UINT_MODULUS) eqn:H1; [|done].
    simpl. intros [= ->]. apply Z.leb_le in H0. apply Z.ltb_lt in H1. done.
  - intros [-> [H0 H1]]. simpl.
    apply Z.leb_le in H0. apply Z.ltb_lt in H1. by rewrite H0, H1.
Qed.

(** The loop of [extract_capture_list] succeeds exactly on a list that
    starts with [n] values of type [unsigned], which it writes into the
    destination from index [i] on. *)
Lemma extract_capture_list_loop_true (n : nat) (i : nat) (tail : ERL_NIF_TERM)
    (dst res : list Z) :
  length dst = (i + n)%nat ->
  extract_capture_list_loop n (Z.of_nat i) tail dst = (true, res) ->
  exists zs rest,
    length zs = n /\
    tail = foldr Cons rest (Integer <$> zs) /\
    Forall (fun z => 0 <= z < UINT_MODULUS) zs /\
    res = take i dst ++ zs.
Proof.
  revert i tail dst. induction n as [|n IH]; intros i tail dst Hlen Hrun.
  - simpl in Hrun. injection Hrun as <-. exists [], tail.
    rewrite take_ge by lia. by rewrite app_nil_r.
  - simpl in Hrun. destruct tail; try done. simpl in Hrun.
    destruct (enif_get_uint tail1) as [item|] eqn:Hitem; [|done].
    apply enif_get_uint_Some in Hitem as [-> Hrange].
    replace (Z.of_nat i + 1) with (Z.of_nat (S i)) in Hrun by lia.
    rewrite Nat2Z.id in Hrun.
    apply IH in Hrun as (zs & rest & Hzs & -> & Hall & ->);
      [|rewrite length_insert; lia].
    exists (item :: zs), rest. split_and!; [simpl; lia|done|by constructor|].
    rewrite (take_S_r _ _ item) by (apply list_lookup_insert_eq; lia).
    rewrite take_insert_ge by lia. by rewrite <- app_assoc.
Qed.

Lemma extract_capture_list_loop_integers (zs : list Z) (i : nat) (rest : ERL_NIF_TERM)
    (dst : list Z) :
  length dst = (i + length zs)%nat ->
  Forall (fun z => 0 <= z < UINT_MODULUS) zs ->
  extract_capture_list_loop (length zs) (Z.of_nat i) (foldr Cons rest (Integer <$> zs)) dst
  = (true, take i dst ++ zs).
Proof.
  revert i dst. induction zs as [|z zs IH]; intros i dst Hlen Hall.
  - simpl. rewrite take_ge by (simpl in Hlen; lia). by rewrite app_nil_r.
  - apply Forall_cons in Hall as [Hz Hall].
    pose proof (proj2 (enif_get_uint_Some (Integer z) z) (conj eq_refl Hz)) as Hu.
    simpl in *. rewrite Hu.
    replace (Z.of_nat i + 1) with (Z.of_nat (S i)) by lia.
    rewrite Nat2Z.id, IH by (rewrite ?length_insert; done || lia).
    rewrite (take_S_r _ _ z) by (apply list_lookup_insert_eq; lia).
    rewrite take_insert_ge by lia. by rewrite <- app_assoc.
Qed.

Lemma enif_get_list_length_nonneg (t : ERL_NIF_TERM) (n : Z) :
  enif_get_list_length t = Some n -> 0 <= n /\ (n = 0 -> t = Nil).
Proof.
  revert n. induction t as [| | | |hd _ tl IH| | |]; intros n; simpl; try done.
  - intros [= <-]. done.
  - destruct (enif_get_list_length tl) as [m|]; [|done].
    simpl. intros [= <-]. destruct (IH m eq_refl). lia.
Qed.

Lemma enif_get_list_length_prefix (ts : list ERL_NIF_TERM) (rest : ERL_NIF_TERM) (len : Z) :
  enif_get_list_length (foldr Cons rest ts) = Some len ->
  exists m, enif_get_list_length rest = Some m /\ len = m + Z.of_nat (length ts).
Proof.
  revert len. induction ts as [|t ts IH]; intros len; simpl.
  - intros H. exists len. split; [done|lia].
  - destruct (enif_get_list_length (foldr Cons rest ts)) as [n|]; [|done].
    simpl. intros [= <-]. destruct (IH n eq_refl) as (m & Hm & ->).
    exists m. split; [done|lia].
Qed.

(** C8 (amended).  [set_capture] on a proper list of integers that fit the
    C type [unsigned] answers [ok] and replaces the capture list by the new
    one.  On every other argument (not a proper list, or with an element that
    is not such an integer) it raises [badarg] and leaves the session, its
    capture list included, as it was. *)
Theorem set_capture_replaces_or_keeps (s : state) (t : ERL_NIF_TERM) :
  (forall zs, Forall (fun z => 0 <= z < UINT_MODULUS) zs ->
     set_capture s (integer_list zs)
     = (enif_make_atom "ok",
        set_st_capture s {| indexes_ptr := Some zs;
                            capture_size := Z.of_nat (length zs) |})) /\
  ((exists zs, t = integer_list zs /\ Forall (fun z => 0 <= z < UINT_MODULUS) zs) \/
   set_capture s t = (enif_make_badarg, s)).
Proof.
  split.
  - intros zs Hzs. unfold set_capture, update_capture, extract_capture_list.
    rewrite enif_get_list_length_integer_list, Nat2Z.id.
    unfold integer_list.
    rewrite (extract_capture_list_loop_integers zs 0) by (by rewrite ?length_replicate).
    done.
  - unfold set_capture, update_capture, extract_capture_list.
    destruct (enif_get_list_length t) as [len|] eqn:Hlen; [|by right].
    destruct (extract_capture_list_loop _ _ _ _) as [[] res] eqn:Hrun; [|by right].
    left. apply (extract_capture_list_loop_true _ 0) in Hrun
      as (zs & rest & Hn & -> & Hall & _); [|by rewrite length_replicate].
    exists zs. split; [|done].
    apply enif_get_list_length_prefix in Hlen as (m & Hm & ->).
    apply enif_get_list_length_nonneg in Hm as [Hpos Hnil].
    rewrite length_fmap in Hn. unfold integer_list. rewrite Hnil; [done|lia].
Qed.

(** C8, as first stated, fails on an index that does not fit [unsigned]:
    the list [[4294967296]] is a list of non-negative integers, and
    [set_capture] raises [badarg] on it. *)
Lemma set_capture_refuses_large_index :
  Forall (fun z => 0 <= z) [2 ^ 32] /\
  set_capture new_session (integer_list [2 ^ 32]) = (enif_make_badarg, new_session).
Proof. split; [repeat constructor; lia|reflexivity]. Qed.

(** ** The driving functions *)

Lemma get_csv_chunk_size (chunk : csv_chunk) (s : state) (max_len : Z) :
  0 < max_len ->
  chunk_size (get_csv_chunk chunk s max_len).1 <= max_len /\
  (is_csv_buffer_empty (st_csv_buffer s) = true ->
   get_csv_chunk chunk s max_len
   = ({| chunk_data_ptr := chunk_data_ptr chunk; chunk_size := 0 |}, s)) /\
  (is_csv_buffer_empty (st_csv_buffer s) = false ->
   0 < chunk_size (get_csv_chunk chunk s max_len).1).
Proof.
  intros Hmax. unfold get_csv_chunk.
  destruct (is_csv_buffer_empty (st_csv_buffer s)) eqn:He; simpl.
  - split_and!; [lia|done|done].
  - apply is_csv_buffer_empty_false in He as (_ & _ & Hlt).
    unfold min. destruct (_ <? _) eqn:Hm; [apply Z.ltb_lt in Hm|]; split_and!; (done || lia).
Qed.

(** The loop of [parse_one_row] ends within the fuel it is given, whatever
    the tokenizer does: an iteration that goes on has taken one byte. *)
Lemma parse_one_row_loop_fuel (fuel : nat) (s : state) (cb : callback_state)
    (chunk : csv_chunk) :
  (Z.to_nat (csv_size (st_csv_buffer s) - consumed (st_csv_buffer s)) < fuel)%nat ->
  parse_one_row_loop fuel s cb chunk <> OutOfFuel.
Proof.
  revert s cb chunk. induction fuel as [|fuel IH]; intros s cb chunk Hfuel; [lia|].
  cbn [parse_one_row_loop].
  destruct (row_n (cb_out_buffer cb) =? 0); [|done].
  unfold get_csv_chunk.
  destruct (is_csv_buffer_empty (st_csv_buffer s)) eqn:He; [done|].
  apply is_csv_buffer_empty_false in He as (_ & _ & Hlt).
  cbn [chunk_size].
  destruct (min _ 1 =? 0); [done|].
  unfold tokenize_chunk.
  destruct (csv_parse _ _) as [[p evs] ret].
  destruct (run_callbacks evs cb) as [cb'|]; [|done]. simpl.
  destruct (negb _); [done|].
  apply IH. simpl. unfold min.
  destruct (_ <? 1) eqn:Hone; [apply Z.ltb_lt in Hone|]; lia.
Qed.

Lemma parse_one_row_returns (s : state) : parse_one_row s <> OutOfFuel.
Proof. apply parse_one_row_loop_fuel. lia. Qed.

(** C7 (amended).  [close] keeps no record of the session being closed: it
    leaves the input buffer, the capture list and the options as they were,
    and a [parse] or [parse_one_row] that follows it on a drained input
    buffer answers [{error, eob}], the recoverable end of buffer. *)
Theorem close_leaves_session_open (s s' : state) (t : ERL_NIF_TERM) :
  close s = Return t s' ->
  st_csv_buffer s' = st_csv_buffer s /\
  st_capture s' = st_capture s /\
  options s' = options s /\
  (is_csv_buffer_empty (st_csv_buffer s) = true ->
   parse s' = Return eob s' /\ parse_one_row s' = Return eob s').
Proof.
  unfold close. destruct (csv_fini (parser s)) as [[p evs] rc].
  destruct (run_callbacks evs _) as [cb|]; [|done].
  intros Hclose.
  assert (s' = set_st_row_buffer (set_parser s p) (row_buffer_ptr cb)) as ->.
  { by destruct (negb (rc =? 0)); injection Hclose as _ <-. }
  simpl. split_and!; [done..|]. intros He.
  unfold parse, parse_one_row, parse_one_row_loop, get_csv_chunk. simpl.
  by rewrite He.
Qed.

Lemma is_eob_ok_tuple (t : ERL_NIF_TERM) : is_eob (ok_tuple t) = false.
Proof. by destruct t. Qed.

Lemma batch_rows_ok_tuple (rs : list ERL_NIF_TERM) :
  batch_rows (ok_tuple (foldr Cons Nil rs)) = Some rs.
Proof. simpl. apply list_of_term_list. Qed.

(** What one tokenizer call of a driving function does while the batch
    has room for the records it completes. *)
Lemma tokenize_chunk_spec (s : state) (chunk : csv_chunk) (cb : callback_state) :
  let bytes := take (Z.to_nat (chunk_size chunk)) (chunk_data_ptr chunk) in
  let evs := (csv_parse (parser s) bytes).1.2 in
  0 <= row_n (cb_out_buffer cb) ->
  row_n (cb_out_buffer cb) + count_rows evs <= MAX_ROWS_PER_BATCH ->
  length (rows (cb_out_buffer cb)) = Z.to_nat MAX_ROWS_PER_BATCH ->
  exists cb',
    tokenize_chunk s chunk cb
    = Some (set_st_row_buffer (set_parser s (csv_parse (parser s) bytes).1.1)
                              (emit evs cb).2,
            cb', (csv_parse (parser s) bytes).2) /\
    row_n (cb_out_buffer cb') = row_n (cb_out_buffer cb) + count_rows evs /\
    take (Z.to_nat (row_n (cb_out_buffer cb'))) (rows (cb_out_buffer cb'))
    = take (Z.to_nat (row_n (cb_out_buffer cb))) (rows (cb_out_buffer cb))
      ++ (emit evs cb).1 /\
    row_buffer_ptr cb' = (emit evs cb).2 /\
    capture_ptr cb' = capture_ptr cb /\
    cb_options cb' = cb_options cb /\
    length (rows (cb_out_buffer cb')) = Z.to_nat MAX_ROWS_PER_BATCH.
Proof.
  intros bytes evs Hpos Hroom Hlen. subst evs. unfold tokenize_chunk. fold bytes.
  destruct (csv_parse (parser s) bytes) as [[p evs] ret]. simpl in *.
  destruct (run_callbacks_emit evs cb Hpos Hroom Hlen)
    as (cb' & -> & Hn & Htake & Hrb & Hrest).
  exists cb'. simpl. rewrite Hrb. done.
Qed.

(** C1.  Given that a record takes at least two bytes, [parse] passes the
    assertions of [add_row] and returns: at most [MAX_PARSE_SIZE] bytes go
    to the tokenizer, and a batch it returns has one row for each record
    these bytes complete, at most [MAX_ROWS_PER_BATCH] rows. *)
Theorem parse_batch_bound (s : state) :
  min_record_bytes T ->
  exists t s',
    parse s = Return t s' /\
    forall rs, batch_rows t = Some rs ->
      Z.of_nat (length rs) <= MAX_ROWS_PER_BATCH /\
      exists bytes,
        Z.of_nat (length bytes) <= MAX_PARSE_SIZE /\
        Z.of_nat (length rs) = count_rows (csv_parse (parser s) bytes).1.2.
Proof.
  intros Hmin. unfold parse.
  destruct (get_csv_chunk_size local_csv_chunk s MAX_PARSE_SIZE ltac:(done))
    as (Hle & _ & _).
  assert (Hparser : parser (get_csv_chunk local_csv_chunk s MAX_PARSE_SIZE).2 = parser s).
  { unfold get_csv_chunk. by destruct (is_csv_buffer_empty _). }
  destruct (get_csv_chunk local_csv_chunk s MAX_PARSE_SIZE) as [chunk s1].
  simpl in Hle, Hparser.
  destruct (chunk_size chunk =? 0) eqn:Hzero; [by exists eob, s1|].
  set (bytes := take (Z.to_nat (chunk_size chunk)) (chunk_data_ptr chunk)).
  assert (Hbytes : Z.of_nat (length bytes) <= MAX_PARSE_SIZE).
  { subst bytes. rewrite length_take. limits. }
  pose proof (Hmin (parser s1) bytes) as Hrows.
  pose proof (count_rows_nonneg (csv_parse (parser s1) bytes).1.2) as Hnonneg.
  destruct (tokenize_chunk_spec s1 chunk
              (init_callback_state local_callback_state s1))
    as (cb' & -> & Hn & Htake & _); fold bytes.
  { done. }
  { simpl. limits. }
  { reflexivity. }
  simpl in Hn, Htake. fold bytes in Hn, Htake.
  destruct (negb (_ =? chunk_size chunk)); [by eexists _, _|].
  eexists _, _. split; [done|]. intros rs Hrs.
  unfold make_output, enif_make_list_from_array in Hrs.
  rewrite Htake, batch_rows_ok_tuple in Hrs. injection Hrs as <-.
  rewrite emit_length, <- Hparser.
  split; [limits|].
  by exists bytes.
Qed.

End Session.

Lemma close_leaves_session_open_witness :
  exists t s',
    close new_session = Return t s' /\
    parse s' = Return eob s' /\ parse_one_row s' = Return eob s'.
Proof.
  destruct (close new_session) as [t s'| |] eqn:Hclose; [|discriminate..].
  exists t, s'. split; [reflexivity|].
  destruct (close_leaves_session_open new_session s' t Hclose) as (_ & _ & _ & Heob).
  apply Heob. reflexivity.
Defined.

(** C7, as first stated, fails: after [close], [parse] on a session that
    still has input answers with a batch of rows, and on a drained session
    with [{error, eob}]; neither is a fatal error. *)
Lemma closed_session_still_parses :
  exists t s' t2 s2 t3 s3,
    close (fed_session "a,b
") = Return t s' /\
    parse s' = Return t2 s2 /\
    batch_rows t2 = Some [foldr Cons Nil [Binary [x61]; Binary [x62]]] /\
    is_fatal_error t2 = false /\
    parse s2 = Return t3 s3 /\
    is_fatal_error t3 = false.
Proof. do 6 eexists. split_and!; reflexivity. Qed.

(** ** The reference tokenizer meets the contract *)

Lemma simple_parse_app (p : simple_parser) (a b : list byte) :
  simple_parse p (a ++ b) =
    ((simple_parse (simple_parse p a).1 b).1,
     (simple_parse p a).2 ++ (simple_parse (simple_parse p a).1 b).2).
Proof.
  revert p. induction a as [|x a IH]; intros p; simpl.
  - by destruct (simple_parse p b).
  - destruct (simple_step p x) as [p1 e1]. rewrite IH.
    destruct (simple_parse p1 a) as [p2 e2]. simpl.
    destruct (simple_parse p2 b) as [p3 e3]. simpl. by rewrite app_assoc.
Qed.

Lemma simple_parse_rows (s : list byte) (p : simple_parser) :
  2 * count_rows (simple_parse p s).2
  + (if sp_row_begun (simple_parse p s).1 then 1 else 0)
  <= Z.of_nat (length s) + (if sp_row_begun p then 1 else 0).
Proof.
  revert p. induction s as [|b s IH]; intros p; simpl; [unfold count_rows; simpl; lia|].
  destruct (simple_step p b) as [p1 e1] eqn:Hstep.
  specialize (IH p1). destruct (simple_parse p1 s) as [p2 e2]. simpl in *.
  rewrite count_rows_app.
  assert (2 * count_rows e1 + (if sp_row_begun p1 then 1 else 0)
          <= 1 + (if sp_row_begun p then 1 else 0)); [|lia].
  unfold simple_step in Hstep.
  destruct (Byte.eqb b CSV_LF), (sp_row_begun p) eqn:Hb, (Byte.eqb b (sp_delim p));
    injection Hstep as <- <-; simpl; rewrite ?Hb; unfold count_rows; simpl; lia.
Qed.

Lemma simple_tokenizer_min_record : min_record_bytes simple_tokenizer.
Proof.
  intros p s. simpl. pose proof (simple_parse_rows s p) as H.
  destruct (simple_parse p s) as [p' evs]. simpl in *.
  destruct (sp_row_begun p'), (sp_row_begun p); lia.
Qed.

Lemma simple_tokenizer_accepts_all : accepts_all simple_tokenizer.
Proof. intros p s. simpl. by destruct (simple_parse p s). Qed.

Lemma simple_tokenizer_resumable : resumable simple_tokenizer.
Proof.
  intros p a b. simpl. rewrite simple_parse_app.
  destruct (simple_parse p a) as [p1 e1]. simpl.
  by destruct (simple_parse p1 b) as [p2 e2].
Qed.

(** ** Driving a session to the end of its buffer *)

Section Drain.
Context `{T : Tokenizer}.

Lemma unconsumed_wf (b : csv_buffer) :
  csv_buffer_wf b ->
  unconsumed b = drop (Z.to_nat (consumed b)) (deref (csv_data_ptr b)).
Proof.
  intros [Hpos Hsize]. unfold unconsumed.
  destruct (is_csv_buffer_empty b) eqn:He.
  - apply is_csv_buffer_empty_true in He.
    destruct (csv_data_ptr b) as [d|] eqn:Hd; simpl; [|by rewrite drop_nil].
    specialize (Hsize d eq_refl). rewrite drop_ge; [done|].
    destruct He as [?|[?|?]]; [done|lia|lia].
  - apply is_csv_buffer_empty_false in He as (Hp & _ & Hlt).
    destruct (csv_data_ptr b) as [d|] eqn:Hd; [|done]. simpl.
    specialize (Hsize d eq_refl). apply take_ge. rewrite length_drop. lia.
Qed.

Lemma unconsumed_empty (b : csv_buffer) :
  csv_buffer_wf b -> (unconsumed b = [] <-> is_csv_buffer_empty b = true).
Proof.
  intros Hwf. split.
  - intros Hnil. destruct (is_csv_buffer_empty b) eqn:He; [done|].
    apply is_csv_buffer_empty_false in He as (Hp & _ & Hlt).
    rewrite unconsumed_wf in Hnil by done. destruct Hwf as [Hpos Hsize].
    destruct (csv_data_ptr b) as [d|]; [|done]. specialize (Hsize d eq_refl).
    apply (f_equal length) in Hnil. rewrite length_drop in Hnil. simpl in *. lia.
  - intros He. unfold unconsumed. by rewrite He.
Qed.

(** A chunk of at most [max_len] bytes is the front of the unconsumed
    bytes, and what follows it stays unconsumed. *)
Lemma get_csv_chunk_unconsumed (chunk : csv_chunk) (s : state) (max_len : Z) :
  csv_buffer_wf (st_csv_buffer s) ->
  unconsumed (st_csv_buffer s) <> [] ->
  0 < max_len ->
  let front := take (Z.to_nat max_len) (unconsumed (st_csv_buffer s)) in
  let chunk' := (get_csv_chunk chunk s max_len).1 in
  let s' := (get_csv_chunk chunk s max_len).2 in
  chunk_size chunk' = Z.of_nat (length front) /\
  take (Z.to_nat (chunk_size chunk')) (chunk_data_ptr chunk') = front /\
  front <> [] /\
  s' = consume s (Z.of_nat (length front)) (parser s) (st_row_buffer s).
Proof.
  intros Hwf Hne Hmax front chunk' s'. subst chunk' s'.
  assert (He : is_csv_buffer_empty (st_csv_buffer s) = false).
  { destruct (is_csv_buffer_empty _) eqn:He; [|done].
    by apply unconsumed_empty in He. }
  pose proof (unconsumed_wf _ Hwf) as Hun.
  apply is_csv_buffer_empty_false in He as Hfull. destruct Hfull as (Hp & _ & Hlt).
  destruct Hwf as [Hpos Hsize].
  destruct (csv_data_ptr (st_csv_buffer s)) as [d|] eqn:Hd; [|done].
  specialize (Hsize d eq_refl). simpl in Hun.
  unfold get_csv_chunk. rewrite He, Hd. simpl.
  assert (Hlen : Z.of_nat (length front)
                 = min (csv_size (st_csv_buffer s) - consumed (st_csv_buffer s)) max_len).
  { subst front. rewrite length_take, Hun, length_drop. unfold min.
    destruct (_ <? _) eqn:Hm; [apply Z.ltb_lt in Hm|apply Z.ltb_ge in Hm]; lia. }
  rewrite <- Hlen. split_and!; [done| | |].
  - rewrite <- Hun. subst front. rewrite length_take.
    rewrite Nat2Z.id.
    destruct (Nat.min_spec (Z.to_nat max_len) (length (unconsumed (st_csv_buffer s))))
      as [[_ ->]|[Hge ->]]; [done|].
    by rewrite firstn_all, take_ge.
  - subst front. intros Hnil. apply (f_equal length) in Hnil.
    rewrite length_take in Hnil. destruct (unconsumed _); [done|]. simpl in *. lia.
  - unfold set_st_csv_buffer, consume. by rewrite Hd.
Qed.

Lemma consume_wf (s : state) (n : Z) (p : csv_parser) (rb : row_buffer) :
  csv_buffer_wf (st_csv_buffer s) -> 0 <= n ->
  csv_buffer_wf (st_csv_buffer (consume s n p rb)).
Proof. intros [Hpos Hsize] Hn. split; simpl; [lia|done]. Qed.

Lemma consume_unconsumed (s : state) (n : nat) (p : csv_parser) (rb : row_buffer) :
  csv_buffer_wf (st_csv_buffer s) ->
  unconsumed (st_csv_buffer (consume s (Z.of_nat n) p rb))
  = drop n (unconsumed (st_csv_buffer s)).
Proof.
  intros Hwf. rewrite !unconsumed_wf by (done || apply consume_wf; done || lia).
  destruct Hwf as [Hpos _]. simpl. rewrite drop_drop. f_equal. lia.
Qed.

Lemma run_chunk_wf (s : state) (bs : list byte) :
  csv_buffer_wf (st_csv_buffer s) ->
  csv_buffer_wf (st_csv_buffer (run_chunk s bs).2) /\
  unconsumed (st_csv_buffer (run_chunk s bs).2)
  = drop (length bs) (unconsumed (st_csv_buffer s)).
Proof.
  intros Hwf. unfold run_chunk.
  destruct (csv_parse (parser s) bs) as [[p evs] ret].
  destruct (emit evs _) as [rs rb]. simpl snd.
  split; [apply consume_wf; done || lia|by apply consume_unconsumed].
Qed.

Lemma run_bytes_wf (bs rest : list byte) (s : state) :
  csv_buffer_wf (st_csv_buffer s) ->
  unconsumed (st_csv_buffer s) = bs ++ rest ->
  csv_buffer_wf (st_csv_buffer (run_bytes bs s).2) /\
  unconsumed (st_csv_buffer (run_bytes bs s).2) = rest.
Proof.
  revert s. induction bs as [|b bs IH]; intros s Hwf Hun; [done|].
  simpl. destruct (run_chunk_wf s [b] Hwf) as [Hwf1 Hun1].
  rewrite Hun in Hun1. simpl in Hun1. rewrite drop_0 in Hun1.
  destruct (run_chunk s [b]) as [rs s1]. simpl in *.
  specialize (IH s1 Hwf1 Hun1). by destruct (run_bytes bs s1).
Qed.

Lemma run_bytes_app (a b : list byte) (s : state) :
  run_bytes (a ++ b) s =
    ((run_bytes a s).1 ++ (run_bytes b (run_bytes a s).2).1,
     (run_bytes b (run_bytes a s).2).2).
Proof.
  revert s. induction a as [|x a IH]; intros s; simpl.
  - by destruct (run_bytes b s).
  - destruct (run_chunk s [x]) as [rs s1]. rewrite IH.
    destruct (run_bytes a s1) as [rs2 s2]. simpl.
    destruct (run_bytes b s2) as [rs3 s3]. simpl. by rewrite app_assoc.
Qed.

(** For a tokenizer that resumes across calls, one call on a chunk does
    what two calls on its two parts do, and so what one call per byte
    does. *)
Lemma run_chunk_eq (s : state) (bs : list byte) :
  run_chunk s bs =
    ((emit (csv_parse (parser s) bs).1.2 (init_callback_state local_callback_state s)).1,
     consume s (Z.of_nat (length bs)) (csv_parse (parser s) bs).1.1
       (emit (csv_parse (parser s) bs).1.2 (init_callback_state local_callback_state s)).2).
Proof.
  unfold run_chunk. destruct (csv_parse (parser s) bs) as [[p evs] ret]. simpl.
  by destruct (emit evs _).
Qed.

Lemma run_chunk_app (a b : list byte) (s : state) :
  resumable T ->
  run_chunk s (a ++ b) =
    ((run_chunk s a).1 ++ (run_chunk (run_chunk s a).2 b).1,
     (run_chunk (run_chunk s a).2 b).2).
Proof.
  intros Hres. destruct (Hres (parser s) a b) as [Hp Hevs].
  rewrite !run_chunk_eq. cbn [fst snd]. rewrite Hp, Hevs, emit_app. cbn [fst snd].
  set (p1 := (csv_parse (parser s) a).1.1).
  set (rb1 := (emit (csv_parse (parser s) a).1.2 _).2).
  cbn [consume parser].
  change (init_callback_state local_callback_state
            (consume s (Z.of_nat (length a)) p1 rb1))
    with (set_row_buffer (init_callback_state local_callback_state s) rb1).
  f_equal. unfold consume. simpl.
  by rewrite length_app, Nat2Z.inj_add, Z.add_assoc.
Qed.

Lemma run_chunk_bytes (bs : list byte) (s : state) :
  resumable T -> bs <> [] -> run_chunk s bs = run_bytes bs s.
Proof.
  intros Hres. revert s. induction bs as [|b bs IH]; intros s Hne; [done|].
  destruct bs as [|b' bs].
  { simpl. destruct (run_chunk s [b]). by rewrite app_nil_r. }
  change (b :: b' :: bs) with ([b] ++ b' :: bs).
  rewrite run_chunk_app, run_bytes_app by done.
  rewrite IH by done. simpl.
  destruct (run_chunk s [b]) as [rs1 s1]. simpl. by rewrite app_nil_r.
Qed.

Lemma parse_eob (s : state) :
  is_csv_buffer_empty (st_csv_buffer s) = true -> parse s = Return eob s.
Proof. intros He. unfold parse, get_csv_chunk. by rewrite He. Qed.

(** [parse] on a buffer with unconsumed bytes: one tokenizer call on their
    first [MAX_PARSE_SIZE]. *)
Lemma parse_chunk (s : state) :
  accepts_all T -> min_record_bytes T ->
  csv_buffer_wf (st_csv_buffer s) ->
  unconsumed (st_csv_buffer s) <> [] ->
  let front := take (Z.to_nat MAX_PARSE_SIZE) (unconsumed (st_csv_buffer s)) in
  parse s = Return (ok_tuple (foldr Cons Nil (run_chunk s front).1)) (run_chunk s front).2.
Proof.
  intros Hacc Hmin Hwf Hne front. unfold parse.
  destruct (get_csv_chunk_unconsumed local_csv_chunk s MAX_PARSE_SIZE Hwf Hne ltac:(done))
    as (Hsize & Hbytes & Hfront & Hs1).
  fold front in Hsize, Hbytes, Hfront, Hs1.
  destruct (get_csv_chunk local_csv_chunk s MAX_PARSE_SIZE) as [chunk s1].
  simpl in Hsize, Hbytes, Hs1.
  assert (Hlen : 0 < Z.of_nat (length front) <= MAX_PARSE_SIZE).
  { split; [destruct front; [done|simpl; lia]|].
    subst front. rewrite length_take. limits. }
  destruct (chunk_size chunk =? 0) eqn:Hz; [apply Z.eqb_eq in Hz; lia|].
  pose proof (Hmin (parser s1) front) as Hrows.
  pose proof (count_rows_nonneg (csv_parse (parser s1) front).1.2) as Hnonneg.
  destruct (tokenize_chunk_spec s1 chunk (init_callback_state local_callback_state s1))
    as (cb' & -> & Hn & Htake & _); rewrite ?Hbytes.
  { done. }
  { simpl. limits. }
  { reflexivity. }
  simpl in Htake. rewrite Hbytes in Htake.
  rewrite Hacc, Hsize, Z.eqb_refl. cbn [negb].
  unfold make_output, enif_make_list_from_array. rewrite Htake.
  rewrite run_chunk_eq. subst s1. done.
Qed.

Lemma parse_one_row_loop_done (fuel : nat) (s : state) (cb : callback_state)
    (chunk : csv_chunk) :
  row_n (cb_out_buffer cb) <> 0 ->
  parse_one_row_loop fuel s cb chunk = Return (ok_tuple (make_output cb)) s.
Proof. intros Hn. apply Z.eqb_neq in Hn. destruct fuel; simpl; by rewrite Hn. Qed.

(** The loop of [parse_one_row] gives the tokenizer one byte per call.  It
    either uses up the buffer without completing a record and answers
    [{error, eob}], or stops at the first byte that completes a record and
    answers with that one row. *)
Lemma parse_one_row_loop_spec (bs : list byte) (fuel : nat) (s : state)
    (cb : callback_state) (chunk : csv_chunk) :
  accepts_all T -> min_record_bytes T ->
  csv_buffer_wf (st_csv_buffer s) ->
  unconsumed (st_csv_buffer s) = bs ->
  (length bs < fuel)%nat ->
  row_n (cb_out_buffer cb) = 0 ->
  length (rows (cb_out_buffer cb)) = Z.to_nat MAX_ROWS_PER_BATCH ->
  row_buffer_ptr cb = st_row_buffer s ->
  capture_ptr cb = st_capture s ->
  cb_options cb = options s ->
  (exists s',
     parse_one_row_loop fuel s cb chunk = Return eob s' /\
     run_bytes bs s = ([], s')) \/
  (exists a b rest r sa s',
     bs = a ++ b :: rest /\
     run_bytes a s = ([], sa) /\
     run_chunk sa [b] = ([r], s') /\
     parse_one_row_loop fuel s cb chunk = Return (ok_tuple (foldr Cons Nil [r])) s').
Proof.
  intros Hacc Hmin. revert fuel s cb chunk.
  induction bs as [|b bs IH]; intros fuel s cb chunk Hwf Hun Hfuel Hn Hlen Hrb Hcap Hopt.
  - left. exists s. split; [|done].
    destruct fuel as [|fuel]; [simpl in Hfuel; lia|].
    apply unconsumed_empty in Hun; [|done].
    simpl. rewrite Hn. simpl. unfold get_csv_chunk. by rewrite Hun.
  - destruct fuel as [|fuel]; [simpl in Hfuel; lia|].
    simpl in Hfuel. cbn [parse_one_row_loop]. rewrite Hn. cbn [Z.eqb].
    destruct (get_csv_chunk_unconsumed chunk s 1 Hwf ltac:(by rewrite Hun) ltac:(done))
      as (Hsize & Hbytes & _ & Hs1).
    rewrite Hun in Hsize, Hbytes, Hs1. simpl in Hsize, Hbytes, Hs1.
    destruct (get_csv_chunk chunk s 1) as [chunk1 s1]. simpl in Hsize, Hbytes, Hs1.
    rewrite take_0 in Hbytes. change (Z.of_nat 1) with 1 in Hsize, Hs1.
    rewrite Hsize. cbn [Z.eqb].
    pose proof (Hmin (parser s1) [b]) as Hrows. simpl length in Hrows.
    pose proof (count_rows_nonneg (csv_parse (parser s1) [b]).1.2) as Hnonneg.
    destruct (tokenize_chunk_spec s1 chunk1 cb)
      as (cb' & -> & Hn' & Htake & Hrb' & Hcap' & Hopt' & Hlen'); rewrite ?Hbytes.
    { lia. }
    { rewrite Hn. limits. }
    { done. }
    rewrite Hbytes in Hn', Htake, Hrb'.
    rewrite Hacc. simpl length. rewrite Z.eqb_refl. cbn [negb].
    rewrite Hn, Z.add_0_l in Hn'. rewrite Hn in Htake. simpl take at 2 in Htake.
    rewrite app_nil_l in Htake.
    assert (Hchunk : run_chunk s [b]
              = ((emit (csv_parse (parser s1) [b]).1.2 cb).1,
                 set_st_row_buffer (set_parser s1 (csv_parse (parser s1) [b]).1.1)
                   (emit (csv_parse (parser s1) [b]).1.2 cb).2)).
    { rewrite run_chunk_eq. subst s1. simpl parser.
      by rewrite (emit_ext _ (init_callback_state local_callback_state s) cb). }
    set (s2 := set_st_row_buffer _ _) in *.
    set (rs := (emit (csv_parse (parser s1) [b]).1.2 cb).1) in *.
    pose proof (emit_length (csv_parse (parser s1) [b]).1.2 cb) as Hrs. fold rs in Hrs.
    destruct (run_chunk_wf s [b] Hwf) as [Hwf2 Hun2].
    rewrite Hchunk in Hun2, Hwf2. rewrite Hun in Hun2.
    simpl in Hun2, Hwf2. rewrite drop_0 in Hun2.
    assert (Hrb2 : row_buffer_ptr cb' = st_row_buffer s2) by (by rewrite Hrb').
    assert (Hcap2 : capture_ptr cb' = st_capture s2).
    { rewrite Hcap', Hcap. subst s2 s1. done. }
    assert (Hopt2 : cb_options cb' = options s2).
    { rewrite Hopt', Hopt. subst s2 s1. done. }
    destruct rs as [|r rs'] eqn:Ers.
    + assert (Hn2 : row_n (cb_out_buffer cb') = 0) by (simpl in Hrs; lia).
      destruct (IH fuel s2 cb' chunk1 Hwf2 Hun2 ltac:(lia) Hn2 Hlen' Hrb2 Hcap2 Hopt2)
        as [(s' & Hloop & Hrun)|
            (a & b2 & rest & r & sa & s' & -> & Hrun & Hstep & Hloop)].
      * left. exists s'. split; [done|]. simpl. by rewrite Hchunk, Hrun.
      * right. exists (b :: a), b2, rest, r, sa, s'. split_and!; try done.
        simpl. by rewrite Hchunk, Hrun.
    + right. exists [], b, bs, r, s, s2.
      assert (rs' = []) as ->.
      { destruct rs'; [done|]. simpl length in Hrs. lia. }
      split_and!; [done|done|done|].
      rewrite parse_one_row_loop_done by (simpl length in Hrs; lia).
      unfold make_output, enif_make_list_from_array. by rewrite Htake.
Qed.

Lemma parse_one_row_fuel (s : state) :
  (length (unconsumed (st_csv_buffer s))
   < S (Z.to_nat (csv_size (st_csv_buffer s) - consumed (st_csv_buffer s))))%nat.
Proof.
  unfold unconsumed. destruct (is_csv_buffer_empty _); simpl; [lia|].
  rewrite length_take. lia.
Qed.

(** [parse_one_row], from the loop: the two ways it ends. *)
Lemma parse_one_row_cases (s : state) :
  accepts_all T -> min_record_bytes T ->
  csv_buffer_wf (st_csv_buffer s) ->
  let bs := unconsumed (st_csv_buffer s) in
  (exists s',
     parse_one_row s = Return eob s' /\
     run_bytes bs s = ([], s')) \/
  (exists a b rest r sa s',
     bs = a ++ b :: rest /\
     run_bytes a s = ([], sa) /\
     run_chunk sa [b] = ([r], s') /\
     parse_one_row s = Return (ok_tuple (foldr Cons Nil [r])) s').
Proof.
  intros Hacc Hmin Hwf bs.
  exact (parse_one_row_loop_spec bs
           (S (Z.to_nat (csv_size (st_csv_buffer s) - consumed (st_csv_buffer s))))
           s (init_callback_state local_callback_state s) local_csv_chunk
           Hacc Hmin Hwf eq_refl (parse_one_row_fuel s) eq_refl eq_refl
           eq_refl eq_refl eq_refl).
Qed.

(** C5.  [parse_one_row] gives the tokenizer the unconsumed bytes one byte
    per call.  Either no byte completes a record: every byte is consumed and
    the answer is [{error, eob}].  Or it stops at the first byte that
    completes a record: the bytes before it completed none, the bytes after
    it stay unconsumed, and the answer is a batch of exactly that one row.
    The tokenizer is one that accepts its input and needs two bytes for a
    record. *)
Theorem parse_one_row_single (s : state) :
  accepts_all T -> min_record_bytes T ->
  csv_buffer_wf (st_csv_buffer s) ->
  let bs := unconsumed (st_csv_buffer s) in
  (exists s',
     parse_one_row s = Return eob s' /\
     run_bytes bs s = ([], s') /\
     is_csv_buffer_empty (st_csv_buffer s') = true) \/
  (exists a b rest r sa s',
     bs = a ++ b :: rest /\
     run_bytes a s = ([], sa) /\
     run_chunk sa [b] = ([r], s') /\
     parse_one_row s = Return (ok_tuple (foldr Cons Nil [r])) s' /\
     batch_rows (ok_tuple (foldr Cons Nil [r])) = Some [r] /\
     unconsumed (st_csv_buffer s') = rest).
Proof.
  intros Hacc Hmin Hwf bs. subst bs.
  destruct (parse_one_row_cases s Hacc Hmin Hwf)
    as [(s' & Hloop & Hrun)|(a & b & rest & r & sa & s' & Hbs & Hrun & Hstep & Hloop)].
  - left. exists s'. split_and!; [done|done|].
    destruct (run_bytes_wf (unconsumed (st_csv_buffer s)) [] s Hwf) as [Hwf' Hun'];
      [by rewrite app_nil_r|].
    rewrite Hrun in Hwf', Hun'. by apply unconsumed_empty.
  - right. exists a, b, rest, r, sa, s'. split_and!; [done..|].
    destruct (run_bytes_wf a (b :: rest) s Hwf) as [Hwfa Huna]; [done|].
    rewrite Hrun in Hwfa, Huna. simpl in Hwfa, Huna.
    destruct (run_chunk_wf sa [b] Hwfa) as [_ Hun'].
    rewrite Hstep, Huna in Hun'. done.
Qed.

(** A driving function that takes a non-empty front of the unconsumed bytes
    with each call, and answers with the rows the front completes, drained
    to the end of the buffer gives the rows of all the unconsumed bytes. *)
Lemma drain_run_bytes (drive : state -> nif_result) :
  (forall s, csv_buffer_wf (st_csv_buffer s) ->
     unconsumed (st_csv_buffer s) = [] -> drive s = Return eob s) ->
  (forall s, csv_buffer_wf (st_csv_buffer s) ->
     unconsumed (st_csv_buffer s) <> [] ->
     exists a rest,
       a <> [] /\ unconsumed (st_csv_buffer s) = a ++ rest /\
       (drive s = Return (ok_tuple (foldr Cons Nil (run_bytes a s).1)) (run_bytes a s).2 \/
        (rest = [] /\ (run_bytes a s).1 = [] /\
         drive s = Return eob (run_bytes a s).2))) ->
  forall fuel s,
    csv_buffer_wf (st_csv_buffer s) ->
    (length (unconsumed (st_csv_buffer s)) < fuel)%nat ->
    drain drive fuel s = Some (run_bytes (unconsumed (st_csv_buffer s)) s).
Proof.
  intros Hempty Hfront. induction fuel as [|fuel IH]; intros s Hwf Hfuel; [lia|].
  simpl. destruct (unconsumed (st_csv_buffer s)) as [|b0 bs0] eqn:Hun.
  { by rewrite Hempty. }
  destruct (Hfront s Hwf ltac:(by rewrite Hun)) as (a & rest & Ha & Hsplit & Hdrive).
  rewrite Hun in Hsplit. rewrite Hsplit.
  destruct (run_bytes_wf a rest s Hwf) as [Hwf' Hun']; [by rewrite Hun|].
  assert (Hlen : (length rest < fuel)%nat).
  { apply (f_equal length) in Hsplit. rewrite length_app in Hsplit.
    destruct a; [done|]. simpl in *. lia. }
  rewrite run_bytes_app.
  destruct Hdrive as [->|(-> & Hnil & ->)].
  - rewrite is_eob_ok_tuple, batch_rows_ok_tuple. simpl.
    rewrite IH, Hun' by (done || by rewrite Hun').
    simpl. by destruct (run_bytes rest _).
  - simpl. by rewrite Hnil.
Qed.

(** C4.  On the same session, calling [parse_one_row] until it answers
    [{error, eob}] and calling [parse] until it answers [{error, eob}] give
    the same rows in the same order: the rows of the unconsumed bytes.  Both
    end with the buffer drained and leave the same session.  The tokenizer
    is one that accepts its input, resumes across calls and needs two bytes
    for a record. *)
Theorem parse_one_row_equivalence (s : state) :
  accepts_all T -> resumable T -> min_record_bytes T ->
  csv_buffer_wf (st_csv_buffer s) ->
  let fuel := S (length (unconsumed (st_csv_buffer s))) in
  exists rows s',
    drain parse_one_row fuel s = Some (rows, s') /\
    drain parse fuel s = Some (rows, s') /\
    (rows, s') = run_bytes (unconsumed (st_csv_buffer s)) s /\
    is_csv_buffer_empty (st_csv_buffer s') = true.
Proof.
  intros Hacc Hres Hmin Hwf fuel.
  exists (run_bytes (unconsumed (st_csv_buffer s)) s).1,
         (run_bytes (unconsumed (st_csv_buffer s)) s).2.
  rewrite <- surjective_pairing. split_and!; [| |done|].
  - apply drain_run_bytes; [| |done|subst fuel; lia].
    + intros s0 Hwf0 Hun0. destruct (parse_one_row_cases s0 Hacc Hmin Hwf0)
        as [(s' & Hrow & Hrun)|(a & b & rest & r & sa & s' & Hbs & _)].
      * rewrite Hun0 in Hrun. injection Hrun as <-. done.
      * rewrite Hun0 in Hbs. by destruct a.
    + intros s0 Hwf0 Hun0. destruct (parse_one_row_cases s0 Hacc Hmin Hwf0)
        as [(s' & Hrow & Hrun)|
            (a & b & rest & r & sa & s' & Hbs & Hrun & Hstep & Hrow)].
      * exists (unconsumed (st_csv_buffer s0)), [].
        split_and!; [done|by rewrite app_nil_r|].
        right. rewrite Hrun. done.
      * exists (a ++ [b]), rest. split_and!; [by destruct a|by rewrite <- app_assoc|].
        left. rewrite run_bytes_app, Hrun. simpl. by rewrite Hstep.
  - apply drain_run_bytes; [| |done|subst fuel; lia].
    + intros s0 Hwf0 Hun0. by apply parse_eob, unconsumed_empty.
    + intros s0 Hwf0 Hun0.
      exists (take (Z.to_nat MAX_PARSE_SIZE) (unconsumed (st_csv_buffer s0))),
             (drop (Z.to_nat MAX_PARSE_SIZE) (unconsumed (st_csv_buffer s0))).
      assert (Hne : take (Z.to_nat MAX_PARSE_SIZE) (unconsumed (st_csv_buffer s0)) <> []).
      { by destruct (unconsumed (st_csv_buffer s0)). }
      split_and!; [done|by rewrite take_drop|].
      left. rewrite <- run_chunk_bytes by done. by apply parse_chunk.
  - destruct (run_bytes_wf (unconsumed (st_csv_buffer s)) [] s Hwf) as [Hwf' Hun'];
      [by rewrite app_nil_r|].
    by apply unconsumed_empty.
Qed.

End Drain.

(** ** The theorems at work on the reference tokenizer *)

Lemma fed_session_wf (input : string) :
  csv_buffer_wf (st_csv_buffer (fed_session input)).
Proof.
  split; [simpl; lia|]. intros data [= <-]. simpl.
  by rewrite memcpy_fresh.
Qed.

Lemma add_cell_captured_only_witness :
  let cb' := add_cell [x79] 1 reused_callback_state in
  cols_used (row_buffer_ptr cb') = 2 /\
  cell_bytes (cells_ptr (row_buffer_ptr cb') !!! 1%nat) = [x62].
Proof.
  destruct (add_cell_captured_only [x79] [2; 0; 5] reused_callback_state)
    as (Hcols & _ & _ & Hkeep & _).
  - split; [reflexivity|]. vm_compute. split; discriminate.
  - apply sample_capture_wf.
  - reflexivity.
  - vm_compute. reflexivity.
  - split; [exact Hcols|].
    assert (Hnot : 1 ∉ [2; 0; 5]) by (by apply (bool_decide_unpack _)).
    exact (eq_trans (f_equal cell_bytes (Hkeep Hnot 1%nat)) eq_refl).
Defined.

Lemma parse_batch_bound_witness :
  exists t s',
    parse (fed_session "a,b
c,d
") = Return t s' /\
    forall rs, batch_rows t = Some rs -> Z.of_nat (length rs) <= MAX_ROWS_PER_BATCH.
Proof.
  destruct (parse_batch_bound (fed_session "a,b
c,d
") simple_tokenizer_min_record) as (t & s' & Hparse & Hbound).
  exists t, s'. split; [exact Hparse|].
  intros rs Hrs. exact (proj1 (Hbound rs Hrs)).
Defined.

Lemma feed_single_buffer_witness :
  let fed := set_st_csv_buffer new_session
               {| csv_data_ptr := Some [x61; x0a]; csv_size := 2; consumed := 0 |} in
  feed new_session (Binary [x61; x0a]) true = (enif_make_atom "ok", fed) /\
  feed fed (Binary [x62]) true = (error "csv buffer not empty", fed).
Proof.
  destruct (feed_single_buffer new_session [x61; x0a] [x62] true)
    as (_ & Hok & _ & Hrefused).
  split.
  - apply Hok. left. reflexivity.
  - apply Hrefused. discriminate.
Defined.

Lemma set_capture_replaces_or_keeps_witness :
  set_capture new_session (integer_list [2; 0; 5])
  = (enif_make_atom "ok", set_st_capture new_session sample_capture).
Proof.
  destruct (set_capture_replaces_or_keeps new_session Nil) as [Hok _].
  apply (Hok [2; 0; 5]). repeat constructor; limits.
Defined.

Lemma parse_one_row_single_witness :
  exists r s',
    parse_one_row (fed_session "a,b
c,d
") = Return (ok_tuple (foldr Cons Nil [r])) s' /\
    unconsumed (st_csv_buffer s') = [x63; x2c; x64; x0a].
Proof.
  destruct (parse_one_row_single (fed_session "a,b
c,d
") simple_tokenizer_accepts_all simple_tokenizer_min_record (fed_session_wf _))
    as [(s' & Hrow & _)|(a & b & rest & r & sa & s' & Hbs & _ & _ & Hrow & _ & Hrest)].
  - vm_compute in Hrow. discriminate Hrow.
  - exists r, s'. split; [exact Hrow|].
    pose proof Hrow as Hrun. vm_compute in Hrun.
    injection Hrun as _ <-. reflexivity.
Defined.

Lemma parse_one_row_equivalence_witness :
  exists rows s',
    drain parse_one_row 10 (fed_session "a,b
c,d
e") = Some (rows, s') /\
    drain parse 10 (fed_session "a,b
c,d
e") = Some (rows, s').
Proof.
  destruct (parse_one_row_equivalence (fed_session "a,b
c,d
e") simple_tokenizer_accepts_all simple_tokenizer_resumable
       simple_tokenizer_min_record (fed_session_wf _))
    as (rows & s' & Hone & Hall & _).
  exists rows, s'. split; [exact Hone|exact Hall].
Defined.

(** The engine on the reference tokenizer: the input [a,b], line feed, [c,]
    gives the row [a, b] and then the end of buffer; after the rest of the
    second line is fed, the row [c, d]. *)
Example eob_then_resume :
  exists s1 s2 s3 s4,
    parse (fed_session "a,b
c,") = Return (ok_tuple (foldr Cons Nil [foldr Cons Nil [Binary [x61]; Binary [x62]]])) s1 /\
    parse s1 = Return eob s2 /\
    feed s2 (Binary [x64; x0a]) true = (enif_make_atom "ok", s3) /\
    parse s3 = Return (ok_tuple (foldr Cons Nil [foldr Cons Nil [Binary [x63]; Binary [x64]]])) s4.
Proof. do 4 eexists. split_and!; reflexivity. Qed.

(** * Further properties *)

(** ** Growth and reuse of the storage *)

(** X1.  When every slot of the row buffer is used, [ensure_row_buffer_space]
    makes room for exactly five more columns: the cells that were there stay
    in place, unchanged, and the five new slots hold [empty_cell].  When a
    slot is free it changes nothing.  [cols_used] is kept either way. *)
Theorem ensure_row_buffer_space_five (rb : row_buffer) :
  row_buffer_wf rb ->
  allocated_n rb + 5 < UINT_MODULUS ->
  let rb' := ensure_row_buffer_space rb in
  (cols_used rb = allocated_n rb ->
     cells_ptr rb' = cells_ptr rb ++ replicate 5 empty_cell /\
     allocated_n rb' = allocated_n rb + 5) /\
  (cols_used rb < allocated_n rb -> rb' = rb) /\
  cols_used rb' = cols_used rb /\
  cols_used rb' < allocated_n rb' /\
  row_buffer_wf rb'.
Proof.
  intros Hwf Hmax rb'. subst rb'. pose proof Hwf as [Hn Hc].
  destruct (ensure_row_buffer_space_spec rb Hwf ltac:(lia))
    as (Hwf' & Hcols & Hroom & _ & _).
  split_and!; [| |done|lia|done].
  - intros Heq. by rewrite ensure_row_buffer_space_grow.
  - intros Hlt. apply ensure_row_buffer_space_keep. lia.
Qed.

Lemma ensure_row_buffer_space_five_witness :
  let rb := {| cells_ptr := replicate 5 uninitialized_cell;
               allocated_n := 5; cols_used := 5 |} in
  cells_ptr (ensure_row_buffer_space rb)
  = replicate 5 uninitialized_cell ++ replicate 5 empty_cell /\
  allocated_n (ensure_row_buffer_space rb) = 10.
Proof.
  intros rb.
  assert (Hwf : row_buffer_wf rb) by (split; simpl; lia).
  destruct (ensure_row_buffer_space_five rb Hwf ltac:(simpl; limits)) as (Hgrow & _).
  exact (Hgrow eq_refl).
Defined.

Lemma cell_ok_wf (c : cell) : cell_ok c -> cell_wf c.
Proof. unfold cell_ok, cell_wf. intros Hok Hnone. rewrite Hnone in Hok. tauto. Qed.

Lemma empty_cell_ok : cell_ok empty_cell.
Proof. by split. Qed.

Lemma ensure_cell_size_ok (c : cell) (size : Z) :
  cell_ok c -> 0 <= size <= 2 ^ 53 ->
  exists block,
    cell_data_ptr (ensure_cell_size c size) = Some block /\
    Z.of_nat (length block) = allocated_size (ensure_cell_size c size) /\
    size <= allocated_size (ensure_cell_size c size).
Proof.
  intros Hok Hsize. unfold ensure_cell_size.
  pose proof (align_cell_size_bounds size Hsize) as [_ Halign].
  unfold cell_ok in Hok.
  destruct (cell_data_ptr c) as [block|] eqn:Hptr; simpl.
  - destruct (allocated_size c <? size) eqn:Hlt; simpl.
    + eexists. split; [done|]. unfold enif_alloc. rewrite length_replicate. lia.
    + apply Z.ltb_ge in Hlt. exists block. rewrite Hptr. split; [done|]. lia.
  - eexists. split; [done|]. unfold enif_alloc. rewrite length_replicate. lia.
Qed.

Lemma store_cell_ok (c : cell) (data : list byte) :
  cell_ok c -> Z.of_nat (length data) <= 2 ^ 53 ->
  cell_ok (store_cell c data (Z.of_nat (length data))).
Proof.
  intros Hok Hsize.
  destruct (ensure_cell_size_ok c (Z.of_nat (length data)) Hok ltac:(lia))
    as (block & Hptr & Hlen & Hfit).
  unfold cell_ok, store_cell. cbn [cell_data_ptr allocated_size data_size].
  rewrite Hptr. unfold deref, memcpy. simpl default.
  rewrite Nat2Z.id, firstn_all, length_app, length_drop. lia.
Qed.

(** X2.  Storing a field in a cell and reading the cell back gives the
    field, whatever the cell held before.  The copy stays inside the block:
    after the store the block has [allocated_size] bytes and the field fits
    in it, and the capacity is not below what it was. *)
Theorem store_cell_round_trip (c : cell) (data : list byte) :
  cell_ok c ->
  Z.of_nat (length data) <= 2 ^ 53 ->
  let c' := store_cell c data (Z.of_nat (length data)) in
  cell_bytes c' = data /\
  data_size c' = Z.of_nat (length data) /\
  (exists block,
     cell_data_ptr c' = Some block /\
     Z.of_nat (length block) = allocated_size c' /\
     Z.of_nat (length data) <= allocated_size c') /\
  allocated_size c <= allocated_size c' /\
  cell_ok c'.
Proof.
  intros Hok Hsize c'. subst c'.
  pose proof (store_cell_ok c data Hok Hsize) as Hok'.
  split_and!; [apply cell_holds_bytes, store_cell_holds|done| | |done].
  - unfold cell_ok in Hok'.
    destruct (cell_data_ptr (store_cell c data _)) as [block|] eqn:Hptr; [|done].
    exists block. cbn [data_size store_cell] in Hok'. split; [done|]. lia.
  - rewrite store_cell_allocated_size.
    apply ensure_cell_size_mono; [by apply cell_ok_wf|lia].
Qed.

Lemma store_cell_round_trip_witness :
  let c := {| cell_data_ptr := Some [x7a; x7a]; allocated_size := 2; data_size := 2 |} in
  cell_bytes (store_cell c [x61; x62; x63] 3) = [x61; x62; x63] /\
  2 <= allocated_size (store_cell c [x61; x62; x63] 3).
Proof.
  intros c.
  assert (Hok : cell_ok c) by (split; simpl; lia).
  destruct (store_cell_round_trip c [x61; x62; x63] Hok ltac:(simpl; lia))
    as (Hbytes & _ & _ & Hgrow & _).
  split; [exact Hbytes|exact Hgrow].
Defined.

Lemma cells_grow_refl (cells : list cell) : cells_grow cells cells.
Proof. intros i c Hi. exists c. split; [done|lia]. Qed.

Lemma cells_grow_trans (a b c : list cell) :
  cells_grow a b -> cells_grow b c -> cells_grow a c.
Proof.
  intros Hab Hbc i x Hi.
  destruct (Hab i x Hi) as (y & Hy & Hxy).
  destruct (Hbc i y Hy) as (z & Hz & Hyz).
  exists z. split; [done|lia].
Qed.

Lemma ensure_row_buffer_space_ok (rb : row_buffer) :
  row_buffer_ok rb ->
  cols_used rb + 5 < UINT_MODULUS ->
  row_buffer_ok (ensure_row_buffer_space rb) /\
  cells_grow (cells_ptr rb) (cells_ptr (ensure_row_buffer_space rb)).
Proof.
  intros [Hwf Hcells] Hmax. pose proof Hwf as [Hn Hc].
  destruct (ensure_row_buffer_space_spec rb Hwf Hmax) as (Hwf' & _).
  destruct (decide (cols_used rb = allocated_n rb)) as [Heq|Hne].
  - rewrite ensure_row_buffer_space_grow in * by (done || lia).
    cbn [cells_ptr].
    split; [split; [done|]|].
    + cbn [cells_ptr]. apply Forall_app. split; [done|].
      apply Forall_replicate, empty_cell_ok.
    + intros i c Hi. exists c. split; [|lia]. by apply lookup_app_l_Some.
  - rewrite ensure_row_buffer_space_keep by done.
    split; [done|apply cells_grow_refl].
Qed.

(** One field callback keeps the storage invariant and takes no capacity
    away. *)
Lemma add_cell_ok (cb : callback_state) (data : list byte) :
  row_buffer_ok (row_buffer_ptr cb) ->
  cols_used (row_buffer_ptr cb) + 5 < UINT_MODULUS ->
  Z.of_nat (length data) <= 2 ^ 53 ->
  let cb' := add_cell data (Z.of_nat (length data)) cb in
  row_buffer_ok (row_buffer_ptr cb') /\
  allocated_n (row_buffer_ptr cb) <= allocated_n (row_buffer_ptr cb') /\
  cells_grow (cells_ptr (row_buffer_ptr cb)) (cells_ptr (row_buffer_ptr cb')).
Proof.
  intros Hok Hmax Hsize cb'.
  destruct (add_cell_spec cb data (proj1 Hok) Hmax) as (_ & _ & _ & Hwf' & _).
  destruct (ensure_row_buffer_space_spec _ (proj1 Hok) Hmax)
    as ([Hn1 Hc1] & Hcols1 & Hroom1 & Hgrow1 & _).
  destruct (ensure_row_buffer_space_ok _ Hok Hmax) as ([_ Hcells1] & Hmono1).
  subst cb'. fold (add_cell data (Z.of_nat (length data)) cb) in Hwf'.
  unfold add_cell in *.
  set (rb1 := ensure_row_buffer_space (row_buffer_ptr cb)) in *.
  cbn [set_row_buffer row_buffer_ptr cells_ptr allocated_n] in *.
  assert (Hk : (Z.to_nat (cols_used rb1) < length (cells_ptr rb1))%nat).
  { destruct Hok as [[_ ?] _]. lia. }
  destruct (lookup_lt_is_Some_2 _ _ Hk) as [c1 Hc1'].
  assert (Hc1ok : cell_ok c1).
  { rewrite Forall_lookup in Hcells1. by apply (Hcells1 (Z.to_nat (cols_used rb1))). }
  split_and!; [split; [done|]|done|].
  - destruct (is_output_column cb _); [|done].
    apply Forall_insert; [done|].
    rewrite (list_lookup_total_correct _ _ _ Hc1'). by apply store_cell_ok.
  - apply (cells_grow_trans _ (cells_ptr rb1)); [done|].
    destruct (is_output_column cb _); [|apply cells_grow_refl].
    intros i c Hi. destruct (decide (i = Z.to_nat (cols_used rb1))) as [->|Hne].
    + rewrite Hc1' in Hi. injection Hi as <-.
      eexists. split; [by apply list_lookup_insert_eq|].
      rewrite (list_lookup_total_correct _ _ _ Hc1'), store_cell_allocated_size.
      apply ensure_cell_size_mono; [by apply cell_ok_wf|lia].
    + exists c. split; [|lia]. by rewrite list_lookup_insert_ne.
Qed.

(** X3.  The callbacks of a tokenizer call keep the storage sound and only
    ever add to it: after them the row buffer is well formed, every cell
    agrees with its block, no slot is lost, and no cell has less capacity
    than before; completing a row frees nothing.  The capture list and the
    options are not touched. *)
Theorem run_callbacks_storage (evs : list csv_event) (cb cb' : callback_state) :
  row_buffer_ok (row_buffer_ptr cb) ->
  events_fit evs (cols_used (row_buffer_ptr cb)) ->
  run_callbacks evs cb = Some cb' ->
  row_buffer_ok (row_buffer_ptr cb') /\
  allocated_n (row_buffer_ptr cb) <= allocated_n (row_buffer_ptr cb') /\
  cells_grow (cells_ptr (row_buffer_ptr cb)) (cells_ptr (row_buffer_ptr cb')) /\
  capture_ptr cb' = capture_ptr cb /\
  cb_options cb' = cb_options cb.
Proof.
  revert cb. induction evs as [|[data|c] evs IH]; intros cb Hok Hfit Hrun.
  - injection Hrun as <-. split_and!; [done|lia|apply cells_grow_refl|done|done].
  - destruct Hfit as (Hmax & Hsize & Hfit).
    destruct (add_cell_spec cb data (proj1 Hok) Hmax) as (Hcap & Hopt & _ & _ & Hcols & _).
    destruct (add_cell_ok cb data Hok Hmax Hsize) as (Hok1 & Hn1 & Hgrow1).
    simpl in Hrun. rewrite <- Hcols in Hfit.
    destruct (IH _ Hok1 Hfit Hrun) as (Hok' & Hn' & Hgrow' & Hcap' & Hopt').
    split_and!; [done|lia|by eapply cells_grow_trans|congruence|congruence].
  - simpl in Hrun, Hfit. unfold row_callback in Hrun.
    destruct (add_row cb) as [cb1|] eqn:Hrow; [|done]. simpl in Hrun.
    assert (Hlt : row_n (cb_out_buffer cb) < MAX_ROWS_PER_BATCH).
    { destruct (decide (row_n (cb_out_buffer cb) < MAX_ROWS_PER_BATCH)); [done|].
      rewrite add_row_full in Hrow by lia. done. }
    rewrite add_row_spec in Hrow by done. injection Hrow as <-.
    destruct Hok as [[Hn Hc] Hcells].
    apply IH in Hrun; [done| |done].
    split; [split; simpl; [done|lia]|done].
Qed.

Lemma run_callbacks_storage_witness :
  exists cb',
    run_callbacks [Column [x61]; Column [x62]; Row 10; Column [x63]]
                  (sample_callback_state no_capture) = Some cb' /\
    row_buffer_ok (row_buffer_ptr cb') /\
    0 <= allocated_n (row_buffer_ptr cb').
Proof.
  destruct (run_callbacks [Column [x61]; Column [x62]; Row 10; Column [x63]]
              (sample_callback_state no_capture)) as [cb'|] eqn:Hrun;
    [|discriminate Hrun].
  exists cb'. split; [reflexivity|].
  destruct (run_callbacks_storage
              [Column [x61]; Column [x62]; Row 10; Column [x63]]
              (sample_callback_state no_capture) cb')
    as (Hok & Hn & _).
  - split; [apply sample_row_buffer_wf|constructor].
  - simpl. repeat split; limits.
  - exact Hrun.
  - split; [exact Hok|exact Hn].
Defined.





(** ** The batch bound and the output values *)

Lemma run_callbacks_overflow (evs : list csv_event) (cb : callback_state) :
  row_n (cb_out_buffer cb) <= MAX_ROWS_PER_BATCH ->
  MAX_ROWS_PER_BATCH < row_n (cb_out_buffer cb) + count_rows evs ->
  run_callbacks evs cb = None.
Proof.
  revert cb. induction evs as [|[data|c] evs IH]; intros cb Hle Hover.
  - unfold count_rows in Hover. simpl in Hover. lia.
  - rewrite count_rows_column in Hover. simpl. by apply IH.
  - rewrite count_rows_row in Hover. simpl. unfold row_callback.
    destruct (decide (row_n (cb_out_buffer cb) < MAX_ROWS_PER_BATCH)) as [Hlt|Hge].
    + rewrite add_row_spec by done. simpl. apply IH; simpl; lia.
    + by rewrite add_row_full by lia.
Qed.

(** X5.  The callbacks of a tokenizer call hit the assertion of [add_row]
    exactly when the call completes more records than the batch has room
    for: with [row_n] rows in the batch, up to [64 - row_n] more records are
    stored, and one more aborts. *)
Theorem run_callbacks_aborts_on_overflow (evs : list csv_event) (cb : callback_state) :
  0 <= row_n (cb_out_buffer cb) <= MAX_ROWS_PER_BATCH ->
  length (rows (cb_out_buffer cb)) = Z.to_nat MAX_ROWS_PER_BATCH ->
  (run_callbacks evs cb = None <->
   MAX_ROWS_PER_BATCH < row_n (cb_out_buffer cb) + count_rows evs).
Proof.
  intros Hn Hlen. split.
  - intros Hnone.
    destruct (decide (MAX_ROWS_PER_BATCH < row_n (cb_out_buffer cb) + count_rows evs));
      [done|].
    destruct (run_callbacks_emit evs cb) as (cb' & Hrun & _); [lia|lia|done|].
    congruence.
  - apply run_callbacks_overflow. lia.
Qed.

Lemma run_callbacks_aborts_on_overflow_witness :
  (exists cb', run_callbacks (replicate 64 (Row 10)) (sample_callback_state no_capture)
               = Some cb') /\
  run_callbacks (replicate 65 (Row 10)) (sample_callback_state no_capture) = None.
Proof.
  assert (Hn : 0 <= row_n (cb_out_buffer (sample_callback_state no_capture))
               <= MAX_ROWS_PER_BATCH) by (simpl; limits).
  split.
  - destruct (run_callbacks (replicate 64 (Row 10)) (sample_callback_state no_capture))
      as [cb'|] eqn:Hrun; [by exists cb'|].
    apply (run_callbacks_aborts_on_overflow _ _ Hn eq_refl) in Hrun.
    vm_compute in Hrun. discriminate Hrun.
  - apply (run_callbacks_aborts_on_overflow _ _ Hn eq_refl). reflexivity.
Defined.

Lemma string_bytes_string (data : list byte) :
  string_bytes (foldr Cons Nil ((fun b => Integer (Z_of_byte b)) <$> data)) = Some data.
Proof.
  induction data as [|b data IH]; [done|].
  cbn [fmap list_fmap foldr string_bytes]. unfold Z_of_byte in *.
  rewrite N2Z.id, Byte.of_to_N. simpl.
  change (list_fmap byte ERL_NIF_TERM ?f data) with (f <$> data). by rewrite IH.
Qed.

(** X6.  An output value holds the bytes of its field and nothing else: a
    binary or a string, by the option [OPTION_RETURN_BINARY], from which the
    bytes of the field are read back.  So two fields with the same output
    value are the same bytes. *)
Theorem field_term_round_trip (options : Z) (data data' : list byte) :
  term_bytes options (field_term options data) = Some data /\
  (field_term options data = field_term options data' -> data = data') /\
  (Z.land options OPTION_RETURN_BINARY <> 0 -> field_term options data = Binary data) /\
  (Z.land options OPTION_RETURN_BINARY = 0 ->
   field_term options data = foldr Cons Nil ((fun b => Integer (Z_of_byte b)) <$> data)).
Proof.
  assert (Hbin : forall d, make_output_binary d (Z.of_nat (length d)) = Binary d).
  { intros d. unfold make_output_binary. by rewrite memcpy_fresh. }
  assert (Hstr : forall d, enif_make_string_len d (Z.of_nat (length d))
                 = foldr Cons Nil ((fun b => Integer (Z_of_byte b)) <$> d)).
  { intros d. unfold enif_make_string_len. by rewrite Nat2Z.id, firstn_all. }
  assert (Hback : forall d, term_bytes options (field_term options d) = Some d).
  { intros d. unfold term_bytes, field_term, make_output_term.
    destruct (negb _); [by rewrite Hbin|].
    rewrite Hstr. apply string_bytes_string. }
  split_and!.
  - apply Hback.
  - intros Heq. pose proof (Hback data) as H1. rewrite Heq, Hback in H1. congruence.
  - intros Hne. unfold field_term, make_output_term.
    apply Z.eqb_neq in Hne. by rewrite Hne, Hbin.
  - intros Hz. unfold field_term, make_output_term. by rewrite Hz, Hstr.
Qed.

Lemma field_term_round_trip_witness :
  field_term OPTION_RETURN_BINARY [x61; x62] = Binary [x61; x62] /\
  field_term 0 [x61; x62] = Cons (Integer 97) (Cons (Integer 98) Nil).
Proof.
  destruct (field_term_round_trip OPTION_RETURN_BINARY [x61; x62] []) as (_ & _ & Hb & _).
  destruct (field_term_round_trip 0 [x61; x62] []) as (_ & _ & _ & Hs).
  split; [apply Hb; discriminate|apply Hs; reflexivity].
Defined.

(** ** A capture list that changes in the middle of a row *)

(** X7.  A new capture list applies at once, also to the row that is being
    collected.  A field that arrived while its column was not captured was
    not stored; when the list is then replaced by one that names the column
    and the row completes, the value put out for the column is what the cell
    held before the field arrived (the value of an earlier row, or the empty
    value of a new cell), not the field. *)
Theorem capture_change_mid_row (data : list byte) (indexes indexes2 : list Z)
    (c2 : capture) (j : nat) (cb : callback_state) :
  row_buffer_wf (row_buffer_ptr cb) ->
  capture_wf (capture_ptr cb) ->
  indexes_ptr (capture_ptr cb) = Some indexes ->
  cols_used (row_buffer_ptr cb) + 5 < UINT_MODULUS ->
  cols_used (row_buffer_ptr cb) ∉ indexes ->
  capture_wf c2 ->
  indexes_ptr c2 = Some indexes2 ->
  indexes2 !! j = Some (cols_used (row_buffer_ptr cb)) ->
  output_row (set_capture_ptr (add_cell data (Z.of_nat (length data)) cb) c2) !! j
  = Some (cell_term cb (cols_used (row_buffer_ptr cb))).
Proof.
  intros Hwf Hcwf Hidx Hmax Hnotin Hcwf2 Hidx2 Hj.
  destruct (add_cell_spec cb data Hwf Hmax)
    as (_ & Hopt & _ & _ & Hcols & _ & _ & Hkeep).
  assert (Hk : 0 <= cols_used (row_buffer_ptr cb) < UINT_MODULUS)
    by (destruct Hwf; lia).
  pose proof (is_output_column_capture cb indexes _ Hcwf Hidx Hk) as Hiff.
  assert (Hcell : cells_ptr (row_buffer_ptr (add_cell data (Z.of_nat (length data)) cb))
                    !!! Z.to_nat (cols_used (row_buffer_ptr cb))
                  = cells_ptr (row_buffer_ptr cb) !!! Z.to_nat (cols_used (row_buffer_ptr cb))).
  { apply Hkeep. destruct (is_output_column cb _); [|done].
    exfalso. by apply Hnotin, Hiff. }
  remember (add_cell data (Z.of_nat (length data)) cb) as cb1 eqn:Hcb1.
  rewrite (output_row_capture _ indexes2) by done.
  rewrite list_lookup_fmap, Hj. simpl. rewrite Hcols.
  destruct (_ <? _) eqn:Hlt; [|apply Z.ltb_ge in Hlt; lia].
  unfold cell_term. simpl. by rewrite Hopt, Hcell.
Qed.

Lemma capture_change_mid_row_witness :
  output_row (set_capture_ptr (add_cell [x79] 1 reused_callback_state)
                {| indexes_ptr := Some [1]; capture_size := 1 |}) !! 0%nat
  = Some (Binary [x62]).
Proof.
  refine (capture_change_mid_row [x79] [2; 0; 5] [1]
            {| indexes_ptr := Some [1]; capture_size := 1 |} 0 reused_callback_state
            _ _ _ _ _ _ _ _).
  - split; [reflexivity|]. vm_compute. split; discriminate.
  - apply sample_capture_wf.
  - reflexivity.
  - vm_compute. reflexivity.
  - by apply (bool_decide_unpack _).
  - intros idx [= <-]. split; [reflexivity|]. repeat constructor; limits.
  - reflexivity.
  - reflexivity.
Defined.

(** ** The input buffer and the session *)

Section SessionExtra.
Context `{T : Tokenizer}.

(** X8.  [get_csv_chunk] cuts the unconsumed bytes in two: the chunk, at
    most [max_len] bytes from their front, and the bytes that stay
    unconsumed.  The chunk is empty only when nothing is unconsumed, it is
    shorter than [max_len] only when it takes all that is left, and
    [consumed] advances by its size and by nothing else. *)
Theorem get_csv_chunk_split (chunk : csv_chunk) (s : state) (max_len : Z) :
  csv_buffer_wf (st_csv_buffer s) ->
  0 < max_len ->
  let chunk' := (get_csv_chunk chunk s max_len).1 in
  let s' := (get_csv_chunk chunk s max_len).2 in
  take (Z.to_nat (chunk_size chunk')) (chunk_data_ptr chunk')
    ++ unconsumed (st_csv_buffer s')
  = unconsumed (st_csv_buffer s) /\
  0 <= chunk_size chunk' <= max_len /\
  (chunk_size chunk' = 0 <-> unconsumed (st_csv_buffer s) = []) /\
  (chunk_size chunk' < max_len -> unconsumed (st_csv_buffer s') = []) /\
  consumed (st_csv_buffer s') = consumed (st_csv_buffer s) + chunk_size chunk' /\
  csv_buffer_wf (st_csv_buffer s') /\
  same_stream s s'.
Proof.
  intros Hwf Hmax chunk' s'. subst chunk' s'.
  destruct (unconsumed (st_csv_buffer s)) as [|b bs] eqn:Hun.
  - apply unconsumed_empty in Hun as He; [|done].
    destruct (get_csv_chunk_size chunk s max_len Hmax) as (_ & Hget & _).
    rewrite (Hget He). simpl. rewrite Hun. split_and!; try done; lia.
  - destruct (get_csv_chunk_unconsumed chunk s max_len Hwf ltac:(by rewrite Hun) Hmax)
      as (Hsize & Hbytes & Hne & ->).
    rewrite Hun in Hsize, Hbytes, Hne |- *.
    set (front := take (Z.to_nat max_len) (b :: bs)) in *.
    rewrite Hbytes, Hsize.
    rewrite consume_unconsumed, Hun by done.
    assert (Hlen : length front = Nat.min (Z.to_nat max_len) (length (b :: bs)))
      by apply length_take.
    assert (Hfront : front ++ drop (length front) (b :: bs) = b :: bs).
    { subst front. rewrite Hlen.
      destruct (Nat.min_spec (Z.to_nat max_len) (length (b :: bs))) as [[_ ->]|[Hge ->]].
      - apply take_drop.
      - by rewrite take_ge, drop_all, app_nil_r. }
    assert (Hpos : 0 < Z.of_nat (length front)).
    { destruct front; [done|]. simpl. lia. }
    assert (Hrest : Z.of_nat (length front) < max_len ->
                    drop (length front) (b :: bs) = []).
    { intros Hlt. apply drop_ge. lia. }
    assert (Hwf' : csv_buffer_wf
              (st_csv_buffer (consume s (Z.of_nat (length front)) (parser s)
                                      (st_row_buffer s)))).
    { apply consume_wf; [done|lia]. }
    split; [exact Hfront|]. split; [lia|]. split; [split; [lia|done]|].
    split; [exact Hrest|]. split; [simpl; lia|]. split; [exact Hwf'|done].
Qed.

End SessionExtra.

Lemma get_csv_chunk_split_witness :
  let r := get_csv_chunk local_csv_chunk (fed_session "a,b
c") 3 in
  take (Z.to_nat (chunk_size r.1)) (chunk_data_ptr r.1) ++ unconsumed (st_csv_buffer r.2)
  = [x61; x2c; x62; x0a; x63] /\
  0 <= chunk_size r.1 <= 3.
Proof.
  intros r.
  destruct (get_csv_chunk_split local_csv_chunk (fed_session "a,b
c") 3 (fed_session_wf _) ltac:(lia)) as (Hsplit & Hsize & _).
  split; [exact Hsplit|exact Hsize].
Defined.

(** ** What the driving functions change *)

Section Driving.
Context `{T : Tokenizer}.

Lemma driven_refl (s : state) : driven s s.
Proof. unfold driven. split_and!; try done; lia. Qed.

Lemma driven_trans (s1 s2 s3 : state) : driven s1 s2 -> driven s2 s3 -> driven s1 s3.
Proof.
  unfold driven. intros (Hc1 & Ho1 & Hd1 & Hs1 & Hn1) (Hc2 & Ho2 & Hd2 & Hs2 & Hn2).
  rewrite Hs1 in Hn2. split_and!; try congruence; lia.
Qed.

Lemma get_csv_chunk_driven (chunk : csv_chunk) (s : state) (max_len : Z) :
  0 < max_len -> driven s (get_csv_chunk chunk s max_len).2.
Proof.
  intros Hmax. unfold get_csv_chunk.
  destruct (is_csv_buffer_empty (st_csv_buffer s)) eqn:He; [apply driven_refl|].
  apply is_csv_buffer_empty_false in He as (_ & _ & Hlt).
  unfold driven, min. simpl.
  destruct (_ <? max_len) eqn:Hm; [apply Z.ltb_lt in Hm|apply Z.ltb_ge in Hm];
    split_and!; try done; lia.
Qed.

Lemma tokenize_chunk_driven (s s' : state) (chunk : csv_chunk)
    (cb cb' : callback_state) (ret : Z) :
  tokenize_chunk s chunk cb = Some (s', cb', ret) -> driven s s'.
Proof.
  unfold tokenize_chunk. destruct (csv_parse _ _) as [[p evs] r].
  destruct (run_callbacks evs cb) as [cb1|]; [|done]. simpl.
  intros [= <- _ _]. unfold driven. simpl. split_and!; try done; lia.
Qed.

Lemma parse_one_row_loop_driven (fuel : nat) (s s' : state) (cb : callback_state)
    (chunk : csv_chunk) (t : ERL_NIF_TERM) :
  parse_one_row_loop fuel s cb chunk = Return t s' -> driven s s'.
Proof.
  revert s cb chunk. induction fuel as [|fuel IH]; intros s cb chunk.
  - simpl. destruct (_ =? 0); [done|]. intros [= _ <-]. apply driven_refl.
  - cbn [parse_one_row_loop]. destruct (_ =? 0); [|intros [= _ <-]; apply driven_refl].
    pose proof (get_csv_chunk_driven chunk s 1 ltac:(lia)) as Hd1.
    destruct (get_csv_chunk chunk s 1) as [chunk1 s1]. simpl in Hd1.
    destruct (chunk_size chunk1 =? 0); [by intros [= _ <-]|].
    destruct (tokenize_chunk s1 chunk1 cb) as [[[s2 cb2] ret]|] eqn:Htok; [|done].
    apply tokenize_chunk_driven in Htok.
    destruct (negb _).
    + intros [= _ <-]. by eapply driven_trans.
    + intros Hloop. apply IH in Hloop. eauto using driven_trans.
Qed.

(** X9.  Whatever the tokenizer does, a driving function that returns has
    changed nothing but the parser, the row buffer and [consumed]: the
    capture list, the options and the bytes of the input buffer are as
    before, [consumed] has not gone back and has not passed the end of the
    buffer.  [close] does not move [consumed] at all.  And the loop of
    [parse_one_row] always ends. *)
Theorem driving_calls_frame (s s' : state) (t : ERL_NIF_TERM) :
  (parse s = Return t s' -> driven s s') /\
  (parse_one_row s = Return t s' -> driven s s') /\
  (close s = Return t s' -> driven s s' /\ st_csv_buffer s' = st_csv_buffer s) /\
  parse_one_row s <> OutOfFuel.
Proof.
  split_and!.
  - unfold parse.
    pose proof (get_csv_chunk_driven local_csv_chunk s MAX_PARSE_SIZE ltac:(done)) as Hd1.
    destruct (get_csv_chunk local_csv_chunk s MAX_PARSE_SIZE) as [chunk1 s1].
    simpl in Hd1. destruct (chunk_size chunk1 =? 0); [by intros [= _ <-]|].
    destruct (tokenize_chunk s1 chunk1 _) as [[[s2 cb2] ret]|] eqn:Htok; [|done].
    apply tokenize_chunk_driven in Htok.
    destruct (negb _); intros [= _ <-]; by eapply driven_trans.
  - apply parse_one_row_loop_driven.
  - unfold close. destruct (csv_fini (parser s)) as [[p evs] rc].
    destruct (run_callbacks evs _) as [cb|]; [|done].
    destruct (negb _); intros [= _ <-];
      (split; [unfold driven; simpl; split_and!; try done; lia|done]).
  - apply parse_one_row_loop_fuel. lia.
Qed.

(** What [parse] does on a buffer that is not empty, for any tokenizer that
    stays within the batch. *)
Lemma parse_not_empty (s : state) :
  is_csv_buffer_empty (st_csv_buffer s) = false ->
  let r := csv_parse (parser s) (parse_bytes s) in
  let n := min (csv_size (st_csv_buffer s) - consumed (st_csv_buffer s)) MAX_PARSE_SIZE in
  let out := emit r.1.2 (init_callback_state local_callback_state s) in
  count_rows r.1.2 <= MAX_ROWS_PER_BATCH ->
  parse s =
    Return (if r.2 =? n then ok_tuple (foldr Cons Nil out.1)
            else error2 "csv_parse failed" (csv_strerror (csv_error r.1.1)))
           (consume s n r.1.1 out.2).
Proof.
  intros He r n out Hrows. unfold parse, get_csv_chunk. rewrite He.
  apply is_csv_buffer_empty_false in He as (_ & _ & Hlt).
  fold n. cbn [chunk_size].
  assert (Hn : 0 < n).
  { subst n. unfold min. destruct (_ <? _) eqn:Hm; [|done]. lia. }
  destruct (n =? 0) eqn:Hz; [apply Z.eqb_eq in Hz; lia|].
  match goal with
  | |- context [tokenize_chunk ?s1 ?c ?cb] =>
      destruct (tokenize_chunk_spec s1 c cb) as (cb' & -> & _ & Htake & _)
  end.
  { done. }
  { simpl. pose proof (count_rows_nonneg r.1.2). subst r. unfold parse_bytes in *.
    fold n in Hrows |- *. lia. }
  { reflexivity. }
  simpl in Htake. cbn [chunk_size chunk_data_ptr parser set_st_csv_buffer].
  change (csv_parse (parser s) _) with r.
  unfold make_output, enif_make_list_from_array. rewrite Htake.
  by destruct (r.2 =? n).
Qed.

(** X10.  When the tokenizer does not take all of the chunk, [parse] answers
    [{error, {"csv_parse failed", Text}}] with the tokenizer's text of the
    error.  The chunk stays consumed and the parser and the row buffer are
    as the call left them, so the rows the call completed are not returned
    to anybody.  When it takes all of it, [parse] answers with the batch. *)
Theorem parse_tokenizer_error (s : state) :
  is_csv_buffer_empty (st_csv_buffer s) = false ->
  let r := csv_parse (parser s) (parse_bytes s) in
  let n := min (csv_size (st_csv_buffer s) - consumed (st_csv_buffer s)) MAX_PARSE_SIZE in
  let out := emit r.1.2 (init_callback_state local_callback_state s) in
  count_rows r.1.2 <= MAX_ROWS_PER_BATCH ->
  (r.2 <> n ->
     parse s = Return (error2 "csv_parse failed" (csv_strerror (csv_error r.1.1)))
                      (consume s n r.1.1 out.2) /\
     is_fatal_error (error2 "csv_parse failed" (csv_strerror (csv_error r.1.1))) = true /\
     batch_rows (error2 "csv_parse failed" (csv_strerror (csv_error r.1.1))) = None) /\
  (r.2 = n ->
     parse s = Return (ok_tuple (foldr Cons Nil out.1)) (consume s n r.1.1 out.2)) /\
  0 < n <= MAX_PARSE_SIZE.
Proof.
  intros He r n out Hrows.
  pose proof (parse_not_empty s He Hrows) as Hparse. fold r n out in Hparse.
  split_and!.
  - intros Hne. apply Z.eqb_neq in Hne. rewrite Hne in Hparse. done.
  - intros Heq. apply Z.eqb_eq in Heq. by rewrite Heq in Hparse.
  - apply is_csv_buffer_empty_false in He as (_ & _ & Hlt).
    subst n. unfold min. destruct (_ <? _) eqn:Hm; [apply Z.ltb_lt in Hm|]; limits.
  - subst n. unfold min. destruct (_ <? _) eqn:Hm; [apply Z.ltb_lt in Hm|]; limits.
Qed.

End Driving.

Lemma parse_tokenizer_error_witness :
  exists s',
    parse (refused_session [x61; x0a]) = Return (error2 "csv_parse failed" "refused") s' /\
    consumed (st_csv_buffer s') = 2.
Proof.
  destruct (parse_tokenizer_error (refused_session [x61; x0a]) eq_refl)
    as (Herr & _ & _).
  - vm_compute. discriminate.
  - destruct (Herr ltac:(vm_compute; discriminate)) as (Hparse & _).
    eexists. split; [exact Hparse|reflexivity].
Defined.

Lemma driving_calls_frame_witness :
  exists t s',
    parse (fed_session two_row_input) = Return t s' /\
    driven (fed_session two_row_input) s' /\
    consumed (st_csv_buffer s') = 8.
Proof.
  destruct (parse (fed_session two_row_input)) as [t s'| |] eqn:Hparse;
    [|vm_compute in Hparse; discriminate..].
  destruct (driving_calls_frame (fed_session two_row_input) s' t) as (Hdriven & _).
  exists t, s'. split_and!; [done|by apply Hdriven|].
  vm_compute in Hparse. by injection Hparse as _ <-.
Defined.

(** ** Creating, feeding and closing a session *)

Section Lifecycle.
Context `{T : Tokenizer}.

(** X11.  [init] makes a session only from options that are an unsigned
    integer, when the resource of the session is allocated and [csv_init]
    succeeds; otherwise it raises [badarg], or answers
    [{error, "init_state failed"}] or [{error, "csv_init failed"}], in that
    order, and there is no session.  A new session has the options it was
    given, the delimiter they select (tab for [OPTION_DELIM_TABS], else
    comma), an empty row buffer, no capture list and an empty input buffer,
    whatever the memory held before: the first [parse] or [parse_one_row]
    answers [{error, eob}]. *)
Theorem init_new_session (resource : option state) (argv0 : ERL_NIF_TERM) :
  (enif_get_uint argv0 = None -> init resource argv0 = (enif_make_badarg, None)) /\
  (forall o, enif_get_uint argv0 = Some o -> resource = None ->
     init resource argv0 = (error "init_state failed", None)) /\
  (forall o raw, enif_get_uint argv0 = Some o -> resource = Some raw ->
     (csv_init 0).2 <> 0 ->
     init resource argv0 = (error "csv_init failed", None)) /\
  (forall o raw, enif_get_uint argv0 = Some o -> resource = Some raw ->
     (csv_init 0).2 = 0 ->
     exists s,
       init resource argv0 = (ok_tuple Resource, Some s) /\
       options s = o /\
       parser s = csv_set_delim (csv_init 0).1
                    (if Z.testbit o 0 then CSV_TAB else CSV_COMMA) /\
       st_row_buffer s = {| cells_ptr := []; allocated_n := 0; cols_used := 0 |} /\
       indexes_ptr (st_capture s) = None /\
       is_csv_buffer_empty (st_csv_buffer s) = true /\
       parse s = Return eob s /\
       parse_one_row s = Return eob s).
Proof.
  split_and!.
  - intros Hnone. unfold init. by rewrite Hnone.
  - intros o Ho ->. unfold init. by rewrite Ho.
  - intros o raw Ho -> Hrc. unfold init. rewrite Ho.
    destruct (csv_init 0) as [p rc]. simpl in Hrc.
    apply Z.eqb_neq in Hrc. by rewrite Hrc.
  - intros o raw Ho -> Hrc. unfold init. rewrite Ho.
    destruct (csv_init 0) as [p rc]. simpl in Hrc. subst rc. simpl.
    eexists. split; [done|]. simpl.
    assert (Hbit : negb (Z.land o OPTION_DELIM_TABS =? 0) = Z.testbit o 0).
    { unfold OPTION_DELIM_TABS. change 1 with (Z.ones 1) at 1.
      rewrite Z.land_ones by lia. change (2 ^ 1) with 2.
      rewrite <- Z.bit0_mod. by destruct (Z.testbit o 0). }
    split_and!; try done.
    unfold set_delimiter. by rewrite Hbit.
Qed.

Lemma parse_one_row_eob (s : state) :
  is_csv_buffer_empty (st_csv_buffer s) = true -> parse_one_row s = Return eob s.
Proof.
  intros He. unfold parse_one_row.
  cbn [parse_one_row_loop init_callback_state cb_out_buffer row_n Z.eqb].
  unfold get_csv_chunk. by rewrite He.
Qed.

Lemma feed_same_stream (s : state) (argv1 : ERL_NIF_TERM) (alloc_ok : bool) :
  same_stream s (feed s argv1 alloc_ok).2.
Proof.
  unfold feed. destruct (enif_inspect_binary argv1); [|done].
  destruct (negb (is_csv_buffer_empty _)); [done|]. by destruct (negb alloc_ok).
Qed.

(** X12.  The ways [feed] fails and what they leave.  An argument that is
    not a binary raises [badarg] and changes nothing.  When the buffer is
    drained and the allocation of the new block fails, [feed] answers
    [{error, "could not allocate csv buffer"}]; the old block is gone, the
    buffer is empty, and the same [feed] with memory available succeeds.  No
    [feed] touches the parser, the row buffer, the capture list or the
    options. *)
Theorem feed_failures (s : state) (argv1 : ERL_NIF_TERM) (data : list byte)
    (alloc_ok : bool) :
  (enif_inspect_binary argv1 = None -> feed s argv1 alloc_ok = (enif_make_badarg, s)) /\
  (is_csv_buffer_empty (st_csv_buffer s) = true ->
     let r := feed s (Binary data) false in
     r.1 = error "could not allocate csv buffer" /\
     csv_data_ptr (st_csv_buffer r.2) = None /\
     is_csv_buffer_empty (st_csv_buffer r.2) = true /\
     feed r.2 (Binary data) true = feed s (Binary data) true /\
     (feed s (Binary data) true).1 = enif_make_atom "ok") /\
  same_stream s (feed s argv1 alloc_ok).2.
Proof.
  split_and!.
  - intros Hnone. unfold feed. by rewrite Hnone.
  - intros He r. subst r. unfold feed. simpl. rewrite He. simpl.
    split_and!; reflexivity.
  - apply feed_same_stream.
Qed.

(** X13.  Feeding an empty binary, its block being allocated, succeeds and
    leaves the buffer empty: the next [parse] or [parse_one_row] answers
    [{error, eob}] and the next [feed] is accepted and holds its bytes. *)
Theorem feed_empty_input (s : state) (data : list byte) :
  is_csv_buffer_empty (st_csv_buffer s) = true ->
  let s1 := (feed s (Binary []) true).2 in
  feed s (Binary []) true = (enif_make_atom "ok", s1) /\
  parse s1 = Return eob s1 /\
  parse_one_row s1 = Return eob s1 /\
  (feed s1 (Binary data) true).1 = enif_make_atom "ok" /\
  unconsumed (st_csv_buffer (feed s1 (Binary data) true).2) = data.
Proof.
  intros He s1.
  assert (Hfeed : feed s (Binary []) true
            = (enif_make_atom "ok",
               set_st_csv_buffer s
                 {| csv_data_ptr := Some []; csv_size := 0; consumed := 0 |})).
  { unfold feed. simpl. by rewrite He. }
  subst s1. rewrite Hfeed. simpl snd.
  set (s1 := set_st_csv_buffer s _).
  assert (He1 : is_csv_buffer_empty (st_csv_buffer s1) = true) by done.
  assert (Hfeed1 : feed s1 (Binary data) true
            = (enif_make_atom "ok",
               set_st_csv_buffer s1
                 {| csv_data_ptr := Some data;
                    csv_size := Z.of_nat (length data);
                    consumed := 0 |})).
  { unfold feed. simpl enif_inspect_binary. cbv iota. rewrite He1.
    simpl. by rewrite memcpy_fresh. }
  rewrite Hfeed1.
  split_and!; [done|by apply parse_eob| |done|].
  - by apply parse_one_row_eob.
  - cbn [snd]. rewrite unconsumed_wf.
    + simpl. by rewrite ?memcpy_fresh.
    + split; simpl; [lia|]. intros d Hd. injection Hd as <-.
      by rewrite ?memcpy_fresh.
Qed.

Lemma update_capture_cases (s : state) (lst : ERL_NIF_TERM) :
  (exists c, forall s0, update_capture s0 lst = (true, set_st_capture s0 c)) \/
  (forall s0, update_capture s0 lst = (false, s0)).
Proof.
  unfold update_capture.
  destruct (enif_get_list_length lst) as [len|]; [|by right].
  destruct (extract_capture_list lst len _) as [[] idx]; [|by right].
  left. by eexists.
Qed.

(** X14.  [set_capture] changes the capture list and nothing else, and the
    last list set is the one in force: setting a list after another leaves
    the session as setting the second alone does, and a refused argument
    after an accepted one leaves the accepted list in place. *)
Theorem set_capture_last_wins (s : state) (t1 t2 : ERL_NIF_TERM) :
  let s1 := (set_capture s t1).2 in
  parser s1 = parser s /\
  st_row_buffer s1 = st_row_buffer s /\
  st_csv_buffer s1 = st_csv_buffer s /\
  options s1 = options s /\
  (set_capture s1 t2).1 = (set_capture s t2).1 /\
  ((set_capture s t2).1 = enif_make_atom "ok" ->
     (set_capture s1 t2).2 = (set_capture s t2).2) /\
  ((set_capture s t2).1 <> enif_make_atom "ok" ->
     set_capture s1 t2 = (enif_make_badarg, s1)).
Proof.
  intros s1. subst s1. unfold set_capture.
  destruct (update_capture_cases s t1) as [[c1 H1]|H1];
    destruct (update_capture_cases s t2) as [[c2 H2]|H2];
    rewrite !H1, ?H2; simpl; rewrite ?H2; simpl; split_and!; done.
Qed.

(** X15.  [close] answers with the rows the finalization of the tokenizer
    completes, or with [{error, "csv_fini failed"}] when it fails; the parser
    and the row buffer are as the finalization left them either way.  It
    does not look at the input buffer: bytes that were fed and not yet parsed
    are not tokenized by [close], and its answer is the same whatever the
    buffer holds. *)
Theorem close_result (s : state) (b : csv_buffer) :
  let r := csv_fini (parser s) in
  let out := emit r.1.2 (init_callback_state local_callback_state s) in
  count_rows r.1.2 <= MAX_ROWS_PER_BATCH ->
  close s =
    Return (if r.2 =? 0 then ok_tuple (foldr Cons Nil out.1) else error "csv_fini failed")
           (set_st_row_buffer (set_parser s r.1.1) out.2) /\
  result_term (close (set_st_csv_buffer s b)) = result_term (close s).
Proof.
  intros r out Hrows. split.
  - unfold close. subst out. fold r.
    destruct r as [[p evs] rc] eqn:Hr. simpl in *.
    destruct (run_callbacks_emit evs (init_callback_state local_callback_state s))
      as (cb' & -> & _ & Htake & Hrb & _).
    { done. }
    { simpl. pose proof (count_rows_nonneg evs). lia. }
    { reflexivity. }
    simpl in Htake. unfold make_output, enif_make_list_from_array.
    rewrite Htake, Hrb. by destruct (rc =? 0).
  - unfold close. simpl parser.
    change (init_callback_state local_callback_state (set_st_csv_buffer s b))
      with (init_callback_state local_callback_state s).
    destruct (csv_fini (parser s)) as [[p evs] rc].
    destruct (run_callbacks evs _) as [cb|]; [|done].
    by destruct (negb _).
Qed.

End Lifecycle.

Lemma feed_failures_witness :
  let r := feed new_session (Binary [x61]) false in
  r.1 = error "could not allocate csv buffer" /\
  (feed r.2 (Binary [x61]) true).1 = enif_make_atom "ok".
Proof.
  destruct (feed_failures new_session Nil [x61] true) as (_ & Hfail & _).
  destruct (Hfail eq_refl) as (Herr & _ & _ & Hretry & Hok).
  split; [exact Herr|]. rewrite Hretry. exact Hok.
Defined.

Lemma feed_empty_input_witness :
  let s1 := (feed new_session (Binary []) true).2 in
  parse s1 = Return eob s1 /\
  unconsumed (st_csv_buffer (feed s1 (Binary [x61; x0a]) true).2) = [x61; x0a].
Proof.
  destruct (feed_empty_input new_session [x61; x0a] eq_refl)
    as (_ & Hparse & _ & _ & Hun).
  split; [exact Hparse|exact Hun].
Defined.

Lemma init_new_session_witness :
  init None (Integer 3) = (error "init_state failed", None) /\
  exists s,
    init (Some raw_state) (Integer 3) = (ok_tuple Resource, Some s) /\
    sp_delim (parser s) = CSV_TAB /\
    parse s = Return eob s.
Proof.
  split.
  - destruct (init_new_session None (Integer 3)) as (_ & Hnull & _).
    exact (Hnull 3 eq_refl eq_refl).
  - destruct (init_new_session (Some raw_state) (Integer 3)) as (_ & _ & _ & Hok).
    destruct (Hok 3 raw_state eq_refl eq_refl eq_refl)
      as (s & Hinit & _ & Hparser & _ & _ & _ & Hparse & _).
    exists s. split; [exact Hinit|]. split; [|exact Hparse].
    rewrite Hparser. reflexivity.
Defined.

Lemma set_capture_last_wins_witness :
  set_capture (set_capture new_session (integer_list [0])).2 (integer_list [2; 0; 5])
  = (enif_make_atom "ok", set_st_capture new_session sample_capture).
Proof.
  destruct (set_capture_last_wins new_session (integer_list [0]) (integer_list [2; 0; 5]))
    as (_ & _ & _ & _ & Hterm & Hstate & _).
  rewrite (surjective_pairing (set_capture _ _)), Hterm, (Hstate eq_refl).
  reflexivity.
Defined.

Lemma close_result_witness :
  (exists s', close (fed_session "x,y") = Return (ok_tuple Nil) s') /\
  (exists s1 s',
     parse (fed_session "x,y") = Return (ok_tuple Nil) s1 /\
     close s1 = Return (ok_tuple (foldr Cons Nil [foldr Cons Nil [Binary [x78]; Binary [x79]]])) s').
Proof.
  split.
  - destruct (close_result (fed_session "x,y") (st_csv_buffer new_session)) as [Hclose _].
    + vm_compute. discriminate.
    + eexists. exact Hclose.
  - destruct (parse (fed_session "x,y")) as [t s1| |] eqn:Hparse; [|discriminate..].
    pose proof Hparse as Hp. vm_compute in Hp. injection Hp as <- Hs1.
    exists s1. destruct (close_result s1 (st_csv_buffer new_session)) as [Hclose _].
    + rewrite <- Hs1. vm_compute. discriminate.
    + eexists. split; [reflexivity|]. rewrite Hclose. rewrite <- Hs1. reflexivity.
Defined.

(** ** Draining, and feeding in pieces *)

Section Pieces.
Context `{T : Tokenizer}.

Lemma drain_S (drive : state -> nif_result) (fuel : nat) (s : state) :
  drain drive (S fuel) s
  = match drive s with
    | Return t s' =>
        if is_eob t then Some ([], s')
        else
          rs ← batch_rows t;
          '(rest, s'') ← drain drive fuel s';
          Some (rs ++ rest, s'')
    | _ => None
    end.
Proof. reflexivity. Qed.

Lemma drain_parse_calls (fuel : nat) (s : state) :
  accepts_all T -> resumable T -> min_record_bytes T ->
  csv_buffer_wf (st_csv_buffer s) ->
  (length (unconsumed (st_csv_buffer s)) <= Z.to_nat MAX_PARSE_SIZE * fuel)%nat ->
  drain parse (S fuel) s = Some (run_bytes (unconsumed (st_csv_buffer s)) s).
Proof.
  intros Hacc Hres Hmin. revert s. induction fuel as [|fuel IH]; intros s Hwf Hlen.
  - destruct (unconsumed (st_csv_buffer s)) as [|b bs] eqn:Hun; [|simpl in Hlen; lia].
    simpl. rewrite parse_eob by (by apply unconsumed_empty). done.
  - destruct (unconsumed (st_csv_buffer s)) as [|b bs] eqn:Hun.
    { rewrite drain_S, parse_eob by (by apply unconsumed_empty). done. }
    rewrite drain_S, parse_chunk by (done || by rewrite Hun).
    rewrite is_eob_ok_tuple, batch_rows_ok_tuple. cbn [mbind option_bind].
    rewrite Hun. set (front := take (Z.to_nat MAX_PARSE_SIZE) (b :: bs)).
    assert (Hne : front <> []) by done.
    rewrite run_chunk_bytes by done.
    destruct (run_bytes_wf front (drop (Z.to_nat MAX_PARSE_SIZE) (b :: bs)) s Hwf)
      as [Hwf' Hun']; [by rewrite Hun; subst front; rewrite take_drop|].
    rewrite IH by (done || rewrite Hun', length_drop; lia).
    rewrite Hun'. cbn [mbind option_bind].
    replace (run_bytes (b :: bs) s)
      with (run_bytes (front ++ drop (Z.to_nat MAX_PARSE_SIZE) (b :: bs)) s)
      by (subst front; by rewrite take_drop).
    rewrite run_bytes_app.
    by destruct (run_bytes (drop _ _) _).
Qed.

Lemma drain_parse_short (fuel : nat) (s : state) :
  accepts_all T -> resumable T -> min_record_bytes T ->
  csv_buffer_wf (st_csv_buffer s) ->
  (Z.to_nat MAX_PARSE_SIZE * fuel < length (unconsumed (st_csv_buffer s)))%nat ->
  drain parse (S fuel) s = None.
Proof.
  intros Hacc Hres Hmin. revert s. induction fuel as [|fuel IH]; intros s Hwf Hlen.
  - destruct (unconsumed (st_csv_buffer s)) as [|b bs] eqn:Hun; [simpl in Hlen; lia|].
    rewrite drain_S, parse_chunk by (done || by rewrite Hun).
    by rewrite is_eob_ok_tuple, batch_rows_ok_tuple.
  - destruct (unconsumed (st_csv_buffer s)) as [|b bs] eqn:Hun; [simpl in Hlen; lia|].
    rewrite drain_S, parse_chunk by (done || by rewrite Hun).
    rewrite is_eob_ok_tuple, batch_rows_ok_tuple. cbn [mbind option_bind].
    rewrite Hun. set (front := take (Z.to_nat MAX_PARSE_SIZE) (b :: bs)).
    assert (Hne : front <> []) by done.
    rewrite run_chunk_bytes by done.
    destruct (run_bytes_wf front (drop (Z.to_nat MAX_PARSE_SIZE) (b :: bs)) s Hwf)
      as [Hwf' Hun']; [by rewrite Hun; subst front; rewrite take_drop|].
    rewrite IH; [done|done|]. rewrite Hun', length_drop. lia.
Qed.

(** X16.  Draining with [parse] takes one call for every 128 unconsumed
    bytes, the last chunk counting as one, and one more call for the end of
    buffer: that many calls return all the rows of the unconsumed bytes, and
    any fewer leave the buffer undrained. *)
Theorem parse_calls_to_drain (calls : nat) (s : state) :
  accepts_all T -> resumable T -> min_record_bytes T ->
  csv_buffer_wf (st_csv_buffer s) ->
  let n := length (unconsumed (st_csv_buffer s)) in
  ((n <= 128 * calls)%nat ->
     drain parse (S calls) s = Some (run_bytes (unconsumed (st_csv_buffer s)) s)) /\
  ((128 * calls < n)%nat -> drain parse (S calls) s = None).
Proof.
  intros Hacc Hres Hmin Hwf n. split; intros Hn.
  - by apply drain_parse_calls.
  - by apply drain_parse_short.
Qed.

Lemma run_chunk_same_stream (bs : list byte) (s1 s2 : state) :
  same_stream s1 s2 ->
  (run_chunk s1 bs).1 = (run_chunk s2 bs).1 /\
  same_stream (run_chunk s1 bs).2 (run_chunk s2 bs).2.
Proof.
  intros (Hp & Hrb & Hcap & Hopt). rewrite !run_chunk_eq. cbn [fst snd].
  rewrite (emit_ext _ (init_callback_state local_callback_state s1)
                      (init_callback_state local_callback_state s2))
    by (simpl; congruence).
  rewrite Hp. split; [done|]. unfold same_stream. simpl. by rewrite Hcap, Hopt.
Qed.

Lemma run_bytes_same_stream (bs : list byte) (s1 s2 : state) :
  same_stream s1 s2 ->
  (run_bytes bs s1).1 = (run_bytes bs s2).1 /\
  same_stream (run_bytes bs s1).2 (run_bytes bs s2).2.
Proof.
  revert s1 s2. induction bs as [|b bs IH]; intros s1 s2 Hsame; [done|].
  simpl. destruct (run_chunk_same_stream [b] s1 s2 Hsame) as [Hrows Hnext].
  destruct (run_chunk s1 [b]) as [r1 s1'], (run_chunk s2 [b]) as [r2 s2'].
  simpl in Hrows, Hnext. subst r2.
  destruct (IH s1' s2' Hnext) as [Hrows' Hsame'].
  destruct (run_bytes bs s1') as [q1 t1], (run_bytes bs s2') as [q2 t2].
  simpl in *. by subst q2.
Qed.

(** What a successful [feed] leaves: the new bytes, all unconsumed. *)
Lemma feed_ok (s : state) (data : list byte) :
  is_csv_buffer_empty (st_csv_buffer s) = true ->
  let s' := (feed s (Binary data) true).2 in
  (feed s (Binary data) true).1 = enif_make_atom "ok" /\
  csv_buffer_wf (st_csv_buffer s') /\
  unconsumed (st_csv_buffer s') = data /\
  same_stream s s'.
Proof.
  intros He s'. subst s'. unfold feed. simpl. rewrite He. simpl.
  assert (Hwf : csv_buffer_wf
            {| csv_data_ptr := Some (memcpy (enif_alloc (Z.of_nat (length data))) data
                                            (Z.of_nat (length data)));
               csv_size := Z.of_nat (length data); consumed := 0 |}).
  { split; simpl; [lia|]. intros d [= <-]. by rewrite memcpy_fresh. }
  split_and!; [done|done| |done].
  rewrite unconsumed_wf by done. simpl. by rewrite memcpy_fresh.
Qed.

Lemma same_stream_trans (s1 s2 s3 : state) :
  same_stream s1 s2 -> same_stream s2 s3 -> same_stream s1 s3.
Proof. unfold same_stream. intuition congruence. Qed.

Lemma same_stream_sym (s1 s2 : state) : same_stream s1 s2 -> same_stream s2 s1.
Proof. unfold same_stream. intuition congruence. Qed.

(** X17.  How the input is cut into feeds does not matter.  Feeding [d1],
    draining with [parse], then feeding [d2] and draining again returns, one
    batch after the other, the same rows as feeding [d1 ++ d2] at once and
    draining, and leaves the same parser and row buffer. *)
Theorem feed_in_pieces (s : state) (d1 d2 : list byte) :
  accepts_all T -> resumable T -> min_record_bytes T ->
  is_csv_buffer_empty (st_csv_buffer s) = true ->
  exists r1 s1 r2 s2 s12,
    drain parse (S (length d1)) (feed s (Binary d1) true).2 = Some (r1, s1) /\
    (feed s1 (Binary d2) true).1 = enif_make_atom "ok" /\
    drain parse (S (length d2)) (feed s1 (Binary d2) true).2 = Some (r2, s2) /\
    drain parse (S (length (d1 ++ d2))) (feed s (Binary (d1 ++ d2)) true).2
    = Some (r1 ++ r2, s12) /\
    same_stream s12 s2.
Proof.
  intros Hacc Hres Hmin He.
  destruct (feed_ok s d1 He) as (_ & Hwf1 & Hun1 & Hsame1).
  destruct (feed_ok s (d1 ++ d2) He) as (_ & Hwf12 & Hun12 & Hsame12).
  set (f1 := (feed s (Binary d1) true).2) in *.
  set (f12 := (feed s (Binary (d1 ++ d2)) true).2) in *.
  pose proof (drain_parse_calls (length d1) f1 Hacc Hres Hmin Hwf1) as Hd1.
  rewrite Hun1 in Hd1. specialize (Hd1 ltac:(unfold MAX_PARSE_SIZE; lia)).
  destruct (run_bytes_wf d1 [] f1 Hwf1) as [Hwf1' Hun1']; [by rewrite app_nil_r|].
  set (s1 := (run_bytes d1 f1).2) in *.
  assert (He1 : is_csv_buffer_empty (st_csv_buffer s1) = true)
    by (by apply unconsumed_empty).
  destruct (feed_ok s1 d2 He1) as (Hok2 & Hwf2 & Hun2 & Hsame2).
  set (f2 := (feed s1 (Binary d2) true).2) in *.
  pose proof (drain_parse_calls (length d2) f2 Hacc Hres Hmin Hwf2) as Hd2.
  rewrite Hun2 in Hd2. specialize (Hd2 ltac:(unfold MAX_PARSE_SIZE; lia)).
  pose proof (drain_parse_calls (length (d1 ++ d2)) f12 Hacc Hres Hmin Hwf12) as Hd12.
  rewrite Hun12 in Hd12. specialize (Hd12 ltac:(unfold MAX_PARSE_SIZE; lia)).
  rewrite run_bytes_app in Hd12.
  assert (Hs : same_stream f12 f1)
    by (eapply same_stream_trans; [apply same_stream_sym|]; done).
  destruct (run_bytes_same_stream d1 f12 f1 Hs) as [Hrows1 Hnext1]. fold s1 in Hnext1.
  assert (Hs2 : same_stream (run_bytes d1 f12).2 f2)
    by (eapply same_stream_trans; done).
  destruct (run_bytes_same_stream d2 _ _ Hs2) as [Hrows2 Hnext2].
  exists (run_bytes d1 f1).1, s1, (run_bytes d2 f2).1, (run_bytes d2 f2).2,
         (run_bytes d2 (run_bytes d1 f12).2).2.
  split_and!; [|done| | |done].
  - rewrite Hd1. f_equal. apply surjective_pairing.
  - fold f2. rewrite Hd2. f_equal. apply surjective_pairing.
  - fold f12. rewrite Hd12, Hrows1, Hrows2.
    by destruct (run_bytes d1 f12) as [q1 t1], (run_bytes d2 t1) as [q2 t2].
Qed.

End Pieces.

Lemma parse_calls_to_drain_witness :
  exists rows s',
    drain parse 2 (fed_session two_row_input) = Some (rows, s') /\
    drain parse 1 (fed_session two_row_input) = None.
Proof.
  destruct (parse_calls_to_drain 1 (fed_session two_row_input) simple_tokenizer_accepts_all simple_tokenizer_resumable
       simple_tokenizer_min_record (fed_session_wf _)) as [Hdone _].
  destruct (parse_calls_to_drain 0 (fed_session two_row_input) simple_tokenizer_accepts_all simple_tokenizer_resumable
       simple_tokenizer_min_record (fed_session_wf _)) as [_ Hshort].
  rewrite Hdone by (vm_compute; lia).
  exists (run_bytes (unconsumed (st_csv_buffer (fed_session two_row_input))) (fed_session two_row_input)).1, (run_bytes (unconsumed (st_csv_buffer (fed_session two_row_input))) (fed_session two_row_input)).2. split.
  - by rewrite <- surjective_pairing.
  - apply Hshort. vm_compute. lia.
Defined.

Lemma feed_in_pieces_witness :
  exists r1 s1 r2 s2 s12,
    drain parse 5 (feed new_session (Binary [x61; x2c; x62; x0a]) true).2 = Some (r1, s1) /\
    drain parse 3 (feed s1 (Binary [x63; x0a]) true).2 = Some (r2, s2) /\
    drain parse 7 (feed new_session (Binary [x61; x2c; x62; x0a; x63; x0a]) true).2
    = Some (r1 ++ r2, s12).
Proof.
  destruct (feed_in_pieces new_session [x61; x2c; x62; x0a] [x63; x0a]
              simple_tokenizer_accepts_all simple_tokenizer_resumable
              simple_tokenizer_min_record eq_refl)
    as (r1 & s1 & r2 & s2 & s12 & H1 & _ & H2 & H12 & _).
  exists r1, s1, r2, s2, s12. split_and!; [exact H1|exact H2|exact H12].
Defined.
